(** * koa-pageable: a shallow embedding of [src/index.js]

    The development follows the source file top to bottom: the error
    classes, the numeric helpers, [Direction], [Order], [stringToDirection],
    [Sort] and its iterator, [parseSort], [Pageable], the [Page] hierarchy
    and the [paginate] middleware.  The theorems come after the
    definitions.

    Modelling conventions.
    - Text is [string]; a character is one code unit in the range 0..255.
    - A JavaScript number that the library stores (page, size, element
      counts) is an integer, modelled as [Z]; this is exact for the safe
      integer range.  The one place where the source can leave the integers,
      [Math.ceil(totalElements / size)], has its own type [jsnum] with
      [NaN] and the two infinities.
    - A [throw] is a value of the [result] type; sequencing is the bind of
      the error monad, left to right as JavaScript evaluates. *)

From Stdlib Require Import ZArith Ascii String List Lia.
From stdpp Require Import base option list strings pretty gmap fin_maps.

Local Open Scope string_scope.

(** ** JavaScript values and errors *)

(** The values a text-typed parameter can hold at run time. *)
Inductive jsval : Type :=
  | JUndefined
  | JNull
  | JString (s : string).

#[global] Instance jsval_eq_dec : EqDecision jsval.
Proof. solve_decision. Defined.

(** [KoaPageableError] and its two subclasses, plus the built-in
    [TypeError] the runtime raises for a property access on [null]. *)
Inductive error : Type :=
  | NumberFormatError (message : string)
  | InvalidSortError
  | TypeError.

#[global] Instance error_eq_dec : EqDecision error.
Proof. solve_decision. Defined.

(** [static status = 400] of the library's own error classes. *)
Definition status (e : error) : option Z :=
  match e with
  | NumberFormatError _ | InvalidSortError => Some 400%Z
  | TypeError => None
  end.

Inductive result (A : Type) : Type :=
  | Ok (a : A)
  | Throw (e : error).
Arguments Ok {A} a.
Arguments Throw {A} e.

#[global] Instance result_ret : MRet result := fun _ a => Ok a.
#[global] Instance result_bind : MBind result := fun _ _ f m =>
  match m with
  | Ok a => f a
  | Throw e => Throw e
  end.
#[global] Instance result_fmap : FMap result := fun _ _ f m =>
  match m with
  | Ok a => Ok (f a)
  | Throw e => Throw e
  end.

(** [xs.map(f)] for a callback that may throw: the first throw aborts. *)
Fixpoint map_throwing {A B} (f : A → result B) (xs : list A)
  : result (list B) :=
  match xs with
  | [] => Ok []
  | x :: xs' => y ← f x; ys ← map_throwing f xs'; mret (y :: ys)
  end.

(** ** Strings *)

(** [s.split(sep)] for a one-character separator. *)
Fixpoint split (sep : ascii) (s : string) : list string :=
  match s with
  | EmptyString => [EmptyString]
  | String c s' =>
      if Ascii.eqb c sep then EmptyString :: split sep s'
      else match split sep s' with
           | [] => [String c EmptyString]
           | piece :: pieces => String c piece :: pieces
           end
  end.

(** [xs.join(sep)], which is also [String(xs)] for [sep = ","]. *)
Fixpoint join (sep : string) (xs : list string) : string :=
  match xs with
  | [] => ""
  | [x] => x
  | x :: xs' => x +:+ sep +:+ join sep xs'
  end.

(** [value.length > 0] on text. *)
Definition nonempty (s : string) : bool :=
  match s with
  | EmptyString => false
  | String _ _ => true
  end.

(** [xs[i]] on an array of text: [undefined] out of range. *)
Definition js_index (xs : list string) (i : nat) : jsval :=
  match xs !! i with
  | Some s => JString s
  | None => JUndefined
  end.

(** [c.toLowerCase()] on one code unit: A-Z, and the upper-case letters of
    the Latin-1 block (0xC0-0xDE without the multiplication sign). *)
Definition lower_char (c : ascii) : ascii :=
  let n := nat_of_ascii c in
  if (((65 <=? n) && (n <=? 90))
      || ((192 <=? n) && (n <=? 222) && negb (n =? 215)))%nat
  then ascii_of_nat (n + 32)
  else c.

Fixpoint toLowerCase (s : string) : string :=
  match s with
  | EmptyString => EmptyString
  | String c s' => String (lower_char c) (toLowerCase s')
  end.

(** lodash [isEmpty] on a text-typed value: [null], [undefined] and the
    empty text are empty. *)
Definition isEmpty (v : jsval) : bool :=
  match v with
  | JUndefined | JNull => true
  | JString s => negb (nonempty s)
  end.

(** ** parseInt *)

(** StrWhiteSpaceChar within one code unit. *)
Definition is_white_space (c : ascii) : bool :=
  let n := nat_of_ascii c in
  (((9 <=? n) && (n <=? 13)) || (n =? 32) || (n =? 160))%nat.

Fixpoint trim_start (s : string) : string :=
  match s with
  | String c s' => if is_white_space c then trim_start s' else s
  | EmptyString => EmptyString
  end.

Definition digit_value (c : ascii) : option Z :=
  let n := nat_of_ascii c in
  if ((48 <=? n) && (n <=? 57))%nat then Some (Z.of_nat (n - 48)) else None.

(** The longest prefix of decimal digits, as digit values. *)
Fixpoint leading_digits (s : string) : list Z :=
  match s with
  | EmptyString => []
  | String c s' =>
      match digit_value c with
      | Some d => d :: leading_digits s'
      | None => []
      end
  end.

Definition digits_value (ds : list Z) : Z :=
  fold_left (fun acc d => (10 * acc + d)%Z) ds 0%Z.

(** [parseInt(input, 10)]; [None] is [NaN]. *)
Definition parseInt (input : string) : option Z :=
  let s := trim_start input in
  let '(sign, s) :=
    match s with
    | String "-" rest => ((-1)%Z, rest)
    | String "+" rest => (1%Z, rest)
    | _ => (1%Z, s)
    end in
  match leading_digits s with
  | [] => None
  | ds => Some (sign * digits_value ds)%Z
  end.

(** A query parameter as the framework hands it over: one text value, or
    an array of them when the parameter is repeated. *)
Inductive qvalue : Type :=
  | QStr (s : string)
  | QArr (xs : list string).

#[global] Instance qvalue_eq_dec : EqDecision qvalue.
Proof. solve_decision. Defined.

(** [String(v)], the conversion [parseInt] and template literals apply. *)
Definition ToString (v : qvalue) : string :=
  match v with
  | QStr s => s
  | QArr xs => join "," xs
  end.

(** Truthiness of an optional query parameter: absent and [""] are falsy,
    every array is truthy. *)
Definition truthy (v : option qvalue) : bool :=
  match v with
  | None => false
  | Some (QStr s) => nonempty s
  | Some (QArr _) => true
  end.

Definition parseIntOrThrow (input : qvalue) : result Z :=
  match parseInt (ToString input) with
  | None =>
      Throw (NumberFormatError
               ("Could not convert '" +:+ ToString input +:+ "' to number"))
  | Some n => Ok n
  end.

(** Returns [None] for [null]. *)
Definition parseOptionalIntOrThrow (input : option qvalue)
  : result (option Z) :=
  match input with
  | Some v => if truthy input then Some <$> parseIntOrThrow v else Ok None
  | None => Ok None
  end.

(** [v || d] on an optional number: [null] and [0] are falsy. *)
Definition or_default (v : option Z) (d : Z) : Z :=
  match v with
  | Some n => if (n =? 0)%Z then d else n
  | None => d
  end.

(** ** Direction and Order *)

Inductive Direction : Type := asc | desc.

#[global] Instance Direction_eq_dec : EqDecision Direction.
Proof. solve_decision. Defined.

(** The text each member of the enumeration stands for. *)
Definition Direction_text (d : Direction) : string :=
  match d with
  | asc => "asc"
  | desc => "desc"
  end.

Module Order.

Record t : Type := make { direction : Direction; property : jsval }.

Definition _DEFAULT_DIRECTION : Direction := asc.

(** [new Order(property, direction)].  The default parameter value replaces
    [undefined] only; [toLowerCase] on [null] is a TypeError. *)
Definition new (property : jsval) (direction : jsval) : result t :=
  let direction :=
    match direction with
    | JUndefined => JString (Direction_text _DEFAULT_DIRECTION)
    | _ => direction
    end in
  match direction with
  | JString d =>
      Ok {| direction :=
              if bool_decide (toLowerCase d = Direction_text desc)
              then desc else _DEFAULT_DIRECTION;
            property := property |}
  | JNull | JUndefined => Throw TypeError
  end.

End Order.

Definition stringToDirection (dir : jsval) : result Direction :=
  if isEmpty dir then Ok Order._DEFAULT_DIRECTION
  else if bool_decide (dir = JString (Direction_text asc)) then Ok asc
  else if bool_decide (dir = JString (Direction_text desc)) then Ok desc
  else Throw InvalidSortError.

(** ** Sort and its iterator *)

Module Sort.

Record t : Type := make { orders : list Order.t }.

(** The variables the closure [next] captures. *)
Record iterator : Type :=
  { it_values : list Order.t; it_count : nat; it_done : bool }.

(** The object [next] returns; [value = None] is [undefined]. *)
Record IteratorResult : Type :=
  { done : bool; value : option Order.t }.

(** [sort[Symbol.iterator]()]: a fresh closure for every call. *)
Definition iter (s : t) : iterator :=
  {| it_values := orders s; it_count := 0; it_done := false |}.

(** One call of [next]: [done] is computed from the old [count], and
    [values[count += 1]] reads at the incremented one. *)
Definition next (st : iterator) : IteratorResult * iterator :=
  let values := it_values st in
  let done := (length values <=? it_count st)%nat in
  let count := (it_count st + 1)%nat in
  let value := values !! count in
  ({| done := done; value := value |},
   {| it_values := values; it_count := count; it_done := done |}).

(** The protocol of [for (const x of sort)]: call [next] until it reports
    [done], collecting the values before that.  [None] is out of fuel. *)
Fixpoint for_of_loop (fuel : nat) (st : iterator)
  : option (list (option Order.t)) :=
  match fuel with
  | O => None
  | S fuel' =>
      let '(r, st') := next st in
      if done r then Some []
      else cons (value r) <$> for_of_loop fuel' st'
  end.

(** [sort.forEach(iteratee)], as the sequence of the iteratee's results. *)
Definition forEach {A} (iteratee : jsval → Direction → A) (s : t) : list A :=
  map (fun it => iteratee (Order.property it) (Order.direction it)) (orders s).

Definition toJSON (s : t) : list Order.t := orders s.

End Sort.

(** ** parseSort *)

(** [paramArray.filter(param => param.length > 0)]. *)
Definition sort_tokens (sortRequestQuery : qvalue) : list string :=
  let paramArray :=
    match sortRequestQuery with
    | QArr xs => concat (map (split ",") xs)
    | QStr s => split "," s
    end in
  List.filter nonempty paramArray.

(** The body of the callback given to [validArray.map]. *)
Definition token_order (it : string) : result Order.t :=
  let result := List.filter nonempty (split ":" it) in
  d ← stringToDirection (js_index result 1);
  Order.new (js_index result 0) (JString (Direction_text d)).

Definition parseSort (sortRequestQuery : qvalue) : result Sort.t :=
  orderList ← map_throwing token_order (sort_tokens sortRequestQuery);
  mret (Sort.make orderList).

(** ** Pageable *)

Module Pageable.

Record t : Type :=
  make { page : Z; size : Z; sort : option Sort.t; indexed : bool }.

(** What the fourth constructor argument can be. *)
Inductive sort_arg : Type :=
  | Absent
  | Raw (q : qvalue)
  | Built (s : Sort.t).

(** [new Pageable(pageNumber, pageSize, indexed, sort)]; an argument that
    is [None] is [undefined] and takes the default. *)
Definition new (pageNumber pageSize : option Z) (indexed : option bool)
    (sort : sort_arg) : result t :=
  let pageNumber := default 0%Z pageNumber in
  let pageSize := default 20%Z pageSize in
  let indexed := default false indexed in
  sort' ← match sort with
          | Absent => Ok None
          | Built s => Ok (Some s)
          | Raw q => if truthy (Some q) then Some <$> parseSort q else Ok None
          end;
  mret {| page := pageNumber; size := pageSize; sort := sort';
          indexed := indexed |}.

(** [this.sort] of a page, handed back to the constructor. *)
Definition of_sort (s : option Sort.t) : sort_arg :=
  match s with
  | Some s => Built s
  | None => Absent
  end.

End Pageable.

(** ** The numbers of the page envelope *)

(** The result of [Math.ceil(a / b)] on integers: an integer, or what IEEE
    division by zero gives. *)
Inductive jsnum : Type :=
  | Fin (z : Z)
  | NaN
  | PosInf
  | NegInf.

#[global] Instance jsnum_eq_dec : EqDecision jsnum.
Proof. solve_decision. Defined.

(** [Math.ceil(a / b)].  The integers have one zero, which stands for
    [+0]: a divisor [-0] is outside the model.  For [a = 0] both zeros
    give [NaN]. *)
Definition Math_ceil_div (a b : Z) : jsnum :=
  if (b =? 0)%Z then
    if (a =? 0)%Z then NaN else if (0 <? a)%Z then PosInf else NegInf
  else Fin (- ((- a) / b))%Z.

(** [x <= y]; every comparison with [NaN] is false. *)
Definition jsnum_leb (x y : jsnum) : bool :=
  match x, y with
  | NaN, _ | _, NaN => false
  | NegInf, _ | _, PosInf => true
  | PosInf, _ | _, NegInf => false
  | Fin a, Fin b => (a <=? b)%Z
  end.

(** [Math.max(x, y)]. *)
Definition Math_max (x y : jsnum) : jsnum :=
  match x, y with
  | NaN, _ | _, NaN => NaN
  | _, _ => if jsnum_leb x y then y else x
  end.

(** [x - k] for an integer [k]. *)
Definition jsnum_sub (x : jsnum) (k : Z) : jsnum :=
  match x with
  | Fin a => Fin (a - k)
  | _ => x
  end.

(** ** The page hierarchy *)

Module Page.

Record t : Type :=
  make { number : Z; size : Z; sort : option Sort.t; totalElements : Z;
         totalPages : jsnum; first : bool; last : bool }.

(** [new Page(totalElements, pageable)]; [numberOfElements] is set by the
    subclasses. *)
Definition new (totalElements : Z) (pageable : Pageable.t) : t :=
  let number := Pageable.page pageable in
  let size := Pageable.size pageable in
  let totalPages := Math_max (Math_ceil_div totalElements size) (Fin 1) in
  {| number := number; size := size; sort := Pageable.sort pageable;
     totalElements := totalElements;
     totalPages := totalPages;
     first := bool_decide (number = 0%Z);
     last := jsnum_leb (jsnum_sub totalPages 1) (Fin number) |}.

End Page.

Module ArrayPage.

Record t (T : Type) : Type :=
  make { base : Page.t; content : list T; numberOfElements : nat }.
Arguments make {T}.
Arguments base {T}.
Arguments content {T}.
Arguments numberOfElements {T}.

Definition new {T} (content : option (list T)) (totalElements : Z)
    (pageable : Pageable.t) : t T :=
  let content := default [] content in
  {| base := Page.new totalElements pageable;
     content := content;
     numberOfElements := length content |}.

(** The [Pageable] that [map] builds for the new page. *)
Definition map_pageable {T} (this : t T) : result Pageable.t :=
  Pageable.new (Some (Page.number (base this))) (Some (Page.size (base this)))
    (Some false) (Pageable.of_sort (Page.sort (base this))).

(** [page.map(iteratee)]; the iteratee receives the element and its
    index. *)
Definition map {T R} (iteratee : T → nat → R) (this : t T) : result (t R) :=
  let mapped := imap (fun i x => iteratee x i) (content this) in
  pageable ← map_pageable this;
  mret (new (Some mapped) (Page.totalElements (base this)) pageable).

End ArrayPage.

(** Conversion of an id to the property key it is stored under. *)
Class PropertyKey (I : Type) : Type := toKey : I → string.

(** A text id is its own key; an integer id is keyed by its decimal
    text. *)
#[global] Instance string_PropertyKey : PropertyKey string := fun s => s.
#[global] Instance Z_PropertyKey : PropertyKey Z := pretty.

(** The bound [T: { id: I }] on the content of an [IndexablePage]. *)
Class HasId (I T : Type) : Type := id_of : T → I.

(** lodash [mapValues(object, iteratee)]; the iteratee receives the value
    and its key. *)
Definition mapValues {T R} (object : gmap string T) (iteratee : T → string → R)
  : gmap string R :=
  map_imap (fun k v => Some (iteratee v k)) object.

(** lodash [keyBy(collection, 'id')]: assign in order, so that a later
    element replaces an earlier one with the same key. *)
Definition keyBy {I T} `{!PropertyKey I, !HasId I T} (collection : list T)
  : gmap string T :=
  foldl (fun acc x => <[toKey (id_of x) := x]> acc) ∅ collection.

Module IndexedPage.

Record t (I T : Type) : Type :=
  make { base : Page.t; ids : list I; index : gmap string T;
         numberOfElements : nat }.
Arguments make {I T}.
Arguments base {I T}.
Arguments ids {I T}.
Arguments index {I T}.
Arguments numberOfElements {I T}.

(** [Object.values(index).length] is the number of entries. *)
Definition new {I T} (ids : list I) (index : gmap string T)
    (totalElements : Z) (pageable : Pageable.t) : t I T :=
  {| base := Page.new totalElements pageable;
     ids := ids;
     index := index;
     numberOfElements := size index |}.

Definition map_pageable {I T} (this : t I T) : result Pageable.t :=
  Pageable.new (Some (Page.number (base this))) (Some (Page.size (base this)))
    (Some true) (Pageable.of_sort (Page.sort (base this))).

Definition map {I T R} (iteratee : T → string → R) (this : t I T)
  : result (t I R) :=
  let mappedIndex := mapValues (index this) iteratee in
  pageable ← map_pageable this;
  mret (new (ids this) mappedIndex (Page.totalElements (base this)) pageable).

End IndexedPage.

(** What [IndexablePage.toJSON] can return. *)
Inductive json_page (I T : Type) : Type :=
  | AsIndexed (p : IndexedPage.t I T)
  | AsArray (p : ArrayPage.t T).
Arguments AsIndexed {I T} p.
Arguments AsArray {I T} p.

Module IndexablePage.

Record t (T : Type) : Type :=
  make { base : Page.t; content : list T; indexed : bool;
         numberOfElements : nat }.
Arguments make {T}.
Arguments base {T}.
Arguments content {T}.
Arguments indexed {T}.
Arguments numberOfElements {T}.

Definition new {T} (content : option (list T)) (totalElements : Z)
    (pageable : Pageable.t) : t T :=
  let content := default [] content in
  {| base := Page.new totalElements pageable;
     content := content;
     indexed := Pageable.indexed pageable;
     numberOfElements := length content |}.

(** [new Pageable(this.number, this.size, this.indexed, this.sort)], which
    [map] and both branches of [toJSON] build. *)
Definition own_pageable {T} (this : t T) : result Pageable.t :=
  Pageable.new (Some (Page.number (base this))) (Some (Page.size (base this)))
    (Some (indexed this)) (Pageable.of_sort (Page.sort (base this))).

Definition map {T R} (iteratee : T → nat → R) (this : t T) : result (t R) :=
  let mapped := imap (fun i x => iteratee x i) (content this) in
  pageable ← own_pageable this;
  mret (new (Some mapped) (Page.totalElements (base this)) pageable).

Definition toJSON {I T} `{!PropertyKey I, !HasId I T} (this : t T)
  : result (json_page I T) :=
  if indexed this then
    let ids := List.map id_of (content this) in
    let contentById := keyBy (content this) in
    pageable ← own_pageable this;
    mret (AsIndexed (IndexedPage.new ids contentById
                       (Page.totalElements (base this)) pageable))
  else
    pageable ← own_pageable this;
    mret (AsArray (ArrayPage.new (Some (content this))
                     (Page.totalElements (base this)) pageable)).

End IndexablePage.

(** ** The middleware *)

Module Query.

(** [ctx.query], restricted to the four parameters the middleware reads. *)
Record t : Type :=
  make { page : option qvalue; size : option qvalue;
         sort : option qvalue; indexed : option qvalue }.

End Query.

(** The request context: the query and the [pageable] slot of
    [ctx.state]. *)
Record Context : Type :=
  { query : Query.t; state_pageable : option Pageable.t }.

(** The [Pageable] the middleware builds from the query. *)
Definition paginate_pageable (q : Query.t) : result Pageable.t :=
  page ← parseOptionalIntOrThrow (Query.page q);
  let page := or_default page 0 in
  size ← parseOptionalIntOrThrow (Query.size q);
  let size := or_default size 10 in
  let sort := if truthy (Query.sort q) then Query.sort q else None in
  let indexed := bool_decide (Query.indexed q = Some (QStr "true")) in
  Pageable.new (Some page) (Some size) (Some indexed)
    (from_option Pageable.Raw Pageable.Absent sort).

(** [paginate(ctx, next)]: store the [Pageable], then run [next] on the
    updated context.  A throw leaves the context as it was. *)
Definition paginate {A} (ctx : Context) (next : Context → A)
  : result (Context * A) :=
  pageable ← paginate_pageable (query ctx);
  let ctx' := {| query := query ctx; state_pageable := Some pageable |} in
  mret (ctx', next ctx').

(** ** Vocabulary of the statements *)

(** Occurrence of a character in a text. *)
Fixpoint contains (c : ascii) (s : string) : bool :=
  match s with
  | EmptyString => false
  | String c' s' => Ascii.eqb c' c || contains c s'
  end.

(** The elements of a query value, a single text counting as one. *)
Definition query_elements (q : qvalue) : list string :=
  match q with
  | QStr s => [s]
  | QArr xs => xs
  end.

(** The non-empty sub-tokens of a token, in order. *)
Definition sub_tokens (tok : string) : list string :=
  List.filter nonempty (split ":" tok).

(** The explicit direction of a token: its second sub-token, if any. *)
Definition explicit_direction (tok : string) : option string :=
  sub_tokens tok !! 1.

(** A direction text that is non-empty and is neither accepted value. *)
Definition invalid_direction (d : string) : Prop :=
  d ≠ "" ∧ d ≠ Direction_text asc ∧ d ≠ Direction_text desc.

(** The direction a token asks for when its explicit direction, if any, is
    an accepted value. *)
Definition token_direction (tok : string) : Direction :=
  match explicit_direction tok with
  | Some d => if bool_decide (d = Direction_text desc) then desc else asc
  | None => asc
  end.

(** A text that reads [desc] when the case of its four letters is
    ignored. *)
Definition desc_ignoring_case (d : string) : Prop :=
  ∃ c1 c2 c3 c4 : ascii,
    d = String c1 (String c2 (String c3 (String c4 "")))
    ∧ (c1 = "d" ∨ c1 = "D")%char ∧ (c2 = "e" ∨ c2 = "E")%char
    ∧ (c3 = "s" ∨ c3 = "S")%char ∧ (c4 = "c" ∨ c4 = "C")%char.

(** The integer read from a numeric query parameter that is present and
    non-empty; [None] when the parameter is absent or empty, or when its
    text does not start with an integer. *)
Definition parsed_param (v : option qvalue) : option Z :=
  if truthy v then x ← v; parseInt (ToString x) else None.

(** A numeric query parameter that is present and non-empty but does not
    parse. *)
Definition unparseable (v : option qvalue) : Prop :=
  truthy v = true ∧ parsed_param v = None.

(** The sort parameter of a query is absent or empty, or it parses. *)
Definition sort_parses (q : Query.t) : Prop :=
  ∀ v, Query.sort q = Some v → truthy (Some v) = true →
       ∃ s, parseSort v = Ok s.

(** ** Sample content *)

(** The shape of the records the test suite pages over. *)
Record person : Type :=
  { id : Z; firstName : string; lastName : string }.

#[global] Instance person_HasId : HasId Z person := id.

Definition people : list person :=
  [ {| id := 1; firstName := "Bob"; lastName := "Stevens" |};
    {| id := 2; firstName := "Steve"; lastName := "Bobbins" |};
    {| id := 3; firstName := "Robert"; lastName := "Stevenson" |};
    {| id := 4; firstName := "Stevarino"; lastName := "Robertson" |} ].

(** ** Vocabulary of the further properties *)

(** Every character of a text is [c]. *)
Fixpoint all_chars (c : ascii) (s : string) : bool :=
  match s with
  | EmptyString => true
  | String c' s' => Ascii.eqb c' c && all_chars c s'
  end.

(** The state of an iterator after [n] calls of [next]. *)
Fixpoint iterator_after (n : nat) (st : Sort.iterator) : Sort.iterator :=
  match n with
  | O => st
  | S n' => iterator_after n' (snd (Sort.next st))
  end.

(** A text that cannot continue a run of digits: it is empty or it starts
    with a character that is not a decimal digit. *)
Definition stops_digits (t : string) : bool :=
  match t with
  | EmptyString => true
  | String c _ =>
      match digit_value c with
      | Some _ => false
      | None => true
      end
  end.

(** The message of the [NumberFormatError] thrown for an input. *)
Definition NumberFormatError_for (input : qvalue) : error :=
  NumberFormatError ("Could not convert '" +:+ ToString input +:+ "' to number").

(** The property key an element of the content is stored under. *)
Definition key_of {I T} `{!PropertyKey I, !HasId I T} (x : T) : string :=
  toKey (id_of x).

(** * Properties *)

Local Open Scope list_scope.

(** ** The error monad *)

Lemma bind_Ok {A B} (m : result A) (f : A → result B) (b : B) :
  m ≫= f = Ok b ↔ ∃ a, m = Ok a ∧ f a = Ok b.
Proof.
  destruct m as [a|e]; simpl; split.
  - intros Hf. by exists a.
  - by intros (a' & [= <-] & Hf).
  - discriminate.
  - by intros (a' & [=] & _).
Qed.

Lemma bind_Throw {A B} (m : result A) (f : A → result B) (e : error) :
  m ≫= f = Throw e ↔ m = Throw e ∨ ∃ a, m = Ok a ∧ f a = Throw e.
Proof.
  destruct m as [a|e']; simpl; split.
  - intros Hf. right. by exists a.
  - intros [[=]|(a' & [= <-] & Hf)]. done.
  - intros [= <-]. by left.
  - intros [[= <-]|(a' & [=] & _)]. done.
Qed.

Lemma map_throwing_Ok {A B} (f : A → result B) xs ys :
  map_throwing f xs = Ok ys ↔ Forall2 (fun x y => f x = Ok y) xs ys.
Proof.
  revert ys. induction xs as [|x xs IH]; intros ys; simpl.
  - split.
    + intros [= <-]. constructor.
    + by inversion 1.
  - rewrite bind_Ok. split.
    + intros (y & Hy & Hrest). apply bind_Ok in Hrest as (ys' & Hys' & [= <-]).
      constructor; [done|]. by apply IH.
    + inversion 1 as [|? y ? ys' Hy Hys']; subst.
      exists y. split; [done|]. apply bind_Ok. exists ys'. split; [|done].
      by apply IH.
Qed.

Lemma map_throwing_Throw {A B} (f : A → result B) xs e :
  map_throwing f xs = Throw e → ∃ x, x ∈ xs ∧ f x = Throw e.
Proof.
  induction xs as [|x xs IH]; simpl; [discriminate|].
  rewrite bind_Throw. intros [Hx|(y & _ & Hrest)].
  - exists x. split; [left|done].
  - apply bind_Throw in Hrest as [Hrest|(ys & _ & [=])].
    destruct (IH Hrest) as (x' & Hin & Hx'). exists x'. split; [by right|done].
Qed.

Lemma map_throwing_elem_Throw {A B} (f : A → result B) xs x e :
  x ∈ xs → f x = Throw e → ∃ e', map_throwing f xs = Throw e'.
Proof.
  induction 1 as [x xs|x x' xs Hin IH]; intros Hx; simpl.
  - rewrite Hx. by exists e.
  - destruct (f x') as [y|e1]; simpl; [|by exists e1].
    destruct (IH Hx) as (e' & ->). by exists e'.
Qed.

(** ** The model of [split] and [join] *)

Lemma split_not_nil sep s : split sep s ≠ [].
Proof.
  destruct s as [|c s]; simpl; [done|].
  destruct (Ascii.eqb c sep); [done|]. by destruct (split sep s).
Qed.

Lemma join_cons_cons sep x y ys :
  join sep (x :: y :: ys) = x +:+ sep +:+ join sep (y :: ys).
Proof. reflexivity. Qed.

(** Joining the pieces with the separator gives the text back. *)
Lemma join_split sep s : join (String sep "") (split sep s) = s.
Proof.
  induction s as [|c s IH]; [done|].
  pose proof (split_not_nil sep s) as Hne. cbn [split].
  destruct (split sep s) as [|p ps]; [done|].
  destruct (Ascii.eqb c sep) eqn:E.
  - apply Ascii.eqb_eq in E as ->. rewrite join_cons_cons, IH. reflexivity.
  - destruct ps as [|p' ps].
    + simpl in *. by rewrite IH.
    + rewrite join_cons_cons in *. rewrite <- IH. reflexivity.
Qed.

(** No piece contains the separator. *)
Lemma split_no_sep sep s : Forall (fun p => contains sep p = false) (split sep s).
Proof.
  induction s as [|c s IH]; simpl; [by repeat constructor|].
  destruct (Ascii.eqb c sep) eqn:E.
  - by constructor.
  - destruct (split sep s) as [|p ps]; [by repeat constructor; simpl; rewrite E|].
    inversion IH; subst. constructor; [|done]. simpl. by rewrite E.
Qed.

(** ** Directions and tokens *)

Lemma js_index_JString xs i s : js_index xs i = JString s ↔ xs !! i = Some s.
Proof.
  unfold js_index. destruct (xs !! i); split; intros H; by inversion H.
Qed.

Lemma js_index_JUndefined xs i : js_index xs i = JUndefined ↔ xs !! i = None.
Proof. unfold js_index. by destruct (xs !! i). Qed.

Lemma nonempty_true s : nonempty s = true ↔ s ≠ "".
Proof. by destruct s. Qed.

Lemma filter_nonempty_elem s xs : s ∈ List.filter nonempty xs → s ≠ "".
Proof.
  rewrite list_elem_of_In, filter_In. intros [_ H]. by apply nonempty_true.
Qed.

Lemma stringToDirection_text d :
  stringToDirection (JString (Direction_text d)) = Ok d.
Proof. by destruct d. Qed.

Lemma stringToDirection_empty dir :
  isEmpty dir = true → stringToDirection dir = Ok asc.
Proof. unfold stringToDirection. by intros ->. Qed.

Lemma stringToDirection_invalid d :
  invalid_direction d → stringToDirection (JString d) = Throw InvalidSortError.
Proof.
  intros (Hne & Hasc & Hdesc). unfold stringToDirection.
  apply nonempty_true in Hne. cbn [isEmpty]. rewrite Hne. cbn [negb].
  rewrite !bool_decide_eq_false_2; [done| |]; congruence.
Qed.

Lemma stringToDirection_Throw dir e :
  stringToDirection dir = Throw e ↔
  e = InvalidSortError ∧ ∃ d, dir = JString d ∧ invalid_direction d.
Proof.
  split.
  - unfold stringToDirection. destruct (isEmpty dir) eqn:Hemp; [done|].
    repeat case_bool_decide; try done. intros [= <-]. split; [done|].
    destruct dir as [| |d]; try done. exists d. split; [done|].
    repeat split; [|congruence..]. intros ->. done.
  - intros (-> & d & -> & Hd). by apply stringToDirection_invalid.
Qed.

Lemma Order_new_text p d :
  Order.new p (JString (Direction_text d)) = Ok (Order.make d p).
Proof. by destruct d. Qed.

Lemma token_order_Ok tok o :
  token_order tok = Ok o ↔
  stringToDirection (js_index (sub_tokens tok) 1) = Ok (Order.direction o)
  ∧ Order.property o = js_index (sub_tokens tok) 0.
Proof.
  unfold token_order. fold (sub_tokens tok). rewrite bind_Ok. split.
  - intros (d & Hd & Hnew). rewrite Order_new_text in Hnew.
    by injection Hnew as <-.
  - intros [Hd Hp]. exists (Order.direction o). split; [done|].
    rewrite Order_new_text, <- Hp. by destruct o.
Qed.

Lemma token_order_Throw tok e :
  token_order tok = Throw e ↔
  e = InvalidSortError
  ∧ ∃ d, explicit_direction tok = Some d ∧ invalid_direction d.
Proof.
  unfold token_order, explicit_direction. fold (sub_tokens tok).
  rewrite bind_Throw, stringToDirection_Throw. split.
  - intros [(-> & d & Hd & Hinv)|(d & _ & Hnew)].
    + split; [done|]. exists d. by rewrite <- js_index_JString.
    + by rewrite Order_new_text in Hnew.
  - intros (-> & d & Hd & Hinv). left. split; [done|]. exists d.
    by rewrite js_index_JString.
Qed.

(** On success the direction is the one the token asks for. *)
Lemma stringToDirection_token_direction tok d :
  stringToDirection (js_index (sub_tokens tok) 1) = Ok d →
  d = token_direction tok.
Proof.
  unfold token_direction, explicit_direction, js_index.
  destruct (sub_tokens tok !! 1) as [s|]; [|by intros [= <-]].
  unfold stringToDirection. destruct (isEmpty (JString s)) eqn:Hs.
  - intros [= <-]. destruct s; [|done]. by rewrite bool_decide_eq_false_2.
  - repeat case_bool_decide; try done; intros [= <-]; simplify_eq; done.
Qed.

Lemma sort_tokens_flatten q :
  sort_tokens q =
  List.filter nonempty (concat (map (split ",") (query_elements q))).
Proof.
  destruct q as [s|xs]; [|done]. unfold sort_tokens. simpl.
  by rewrite app_nil_r.
Qed.

Lemma parseSort_Ok q s :
  parseSort q = Ok s ↔
  Forall2 (fun tok o => token_order tok = Ok o) (sort_tokens q) (Sort.orders s).
Proof.
  unfold parseSort. rewrite bind_Ok. split.
  - intros (os & Hos & [= <-]). by apply map_throwing_Ok.
  - intros H. exists (Sort.orders s). split; [by apply map_throwing_Ok|].
    by destruct s.
Qed.

Lemma parseSort_Throw q e :
  parseSort q = Throw e →
  e = InvalidSortError
  ∧ ∃ tok d, tok ∈ sort_tokens q ∧ explicit_direction tok = Some d
             ∧ invalid_direction d.
Proof.
  unfold parseSort. rewrite bind_Throw. intros [H|(os & _ & [=])].
  apply map_throwing_Throw in H as (tok & Hin & Htok).
  apply token_order_Throw in Htok as (-> & d & Hd & Hinv). eauto 6.
Qed.

Lemma parseSort_invalid q tok d :
  tok ∈ sort_tokens q → explicit_direction tok = Some d → invalid_direction d →
  parseSort q = Throw InvalidSortError.
Proof.
  intros Hin Hd Hinv.
  assert (token_order tok = Throw InvalidSortError) as Htok.
  { apply token_order_Throw. eauto. }
  destruct (map_throwing_elem_Throw _ _ _ _ Hin Htok) as (e' & He').
  assert (parseSort q = Throw e') as Hq by (unfold parseSort; by rewrite He').
  by destruct (parseSort_Throw _ _ Hq) as [-> _].
Qed.

(** C1. For every sort query value the tokens of [parseSort] are the
    non-empty pieces obtained by splitting every element of the value on
    [","], a single text counting as a one-element array.  The parser then
    either returns a [Sort] with exactly one order per token, in token
    order, whose property is the first non-empty [":"]-piece of the token
    and whose direction is the one its second non-empty piece asks for, or
    it throws because some token carries an invalid explicit direction.  No
    returned order has the empty text as property.  Parsing
    ["a,b:desc,c:asc"] gives (a, asc), (b, desc), (c, asc); parsing
    ["a,,b,"] gives the two orders a and b; parsing ["a::desc"] gives the
    single order (a, desc). *)
Theorem parseSort_orders_follow_tokens :
  (∀ q, sort_tokens q =
        List.filter nonempty (concat (map (split ",") (query_elements q))))
  ∧ (∀ q,
       match parseSort q with
       | Ok s =>
           Forall2 (fun tok o =>
                      Order.property o = js_index (sub_tokens tok) 0
                      ∧ Order.direction o = token_direction tok)
                   (sort_tokens q) (Sort.orders s)
       | Throw e =>
           ∃ tok d, tok ∈ sort_tokens q ∧ explicit_direction tok = Some d
                    ∧ invalid_direction d
       end)
  ∧ (∀ q s o, parseSort q = Ok s → o ∈ Sort.orders s →
              Order.property o ≠ JString "")
  ∧ parseSort (QStr "a,b:desc,c:asc") =
      Ok (Sort.make [Order.make asc (JString "a");
                     Order.make desc (JString "b");
                     Order.make asc (JString "c")])
  ∧ parseSort (QStr "a,,b,") =
      Ok (Sort.make [Order.make asc (JString "a");
                     Order.make asc (JString "b")])
  ∧ parseSort (QStr "a::desc") =
      Ok (Sort.make [Order.make desc (JString "a")]).
Proof.
  split; [exact sort_tokens_flatten|].
  split; [|split; [|by repeat split]].
  - intros q. destruct (parseSort q) as [s|e] eqn:Hq.
    + apply parseSort_Ok in Hq. eapply Forall2_impl; [exact Hq|].
      intros tok o [Hd Hp]%token_order_Ok. split; [done|].
      by apply stringToDirection_token_direction.
    + by destruct (parseSort_Throw _ _ Hq) as [_ H].
  - intros q s o Hq Hin Hp. apply parseSort_Ok in Hq.
    destruct (proj1 (list_elem_of_lookup _ _) Hin) as [i Hi].
    destruct (Forall2_lookup_r _ _ _ _ _ Hq Hi) as (tok & _ & Htok).
    apply token_order_Ok in Htok as [_ Hprop]. rewrite Hp in Hprop.
    symmetry in Hprop. apply js_index_JString in Hprop.
    apply list_elem_of_lookup_2 in Hprop. by apply filter_nonempty_elem in Hprop.
Qed.

Lemma parseSort_orders_follow_tokens_witness :
  Order.property (Order.make asc (JString "b")) ≠ JString "".
Proof.
  apply (proj1 (proj2 (proj2 parseSort_orders_follow_tokens))
           (QStr "a,,b,")
           (Sort.make [Order.make asc (JString "a");
                       Order.make asc (JString "b")])).
  - reflexivity.
  - right. left.
Defined.

(** ** Propagation of a throw *)

Lemma Pageable_new_Raw_Throw n sz ix q e :
  truthy (Some q) = true → parseSort q = Throw e →
  Pageable.new n sz ix (Pageable.Raw q) = Throw e.
Proof. intros Ht Hq. unfold Pageable.new. by rewrite Ht, Hq. Qed.

Lemma paginate_pageable_sort_Throw q v p sz e :
  Query.sort q = Some v → truthy (Some v) = true → parseSort v = Throw e →
  parseOptionalIntOrThrow (Query.page q) = Ok p →
  parseOptionalIntOrThrow (Query.size q) = Ok sz →
  paginate_pageable q = Throw e.
Proof.
  intros Hv Ht Hs Hp Hsz. unfold paginate_pageable.
  rewrite Hp, Hsz, Hv, Ht. simpl. by apply Pageable_new_Raw_Throw.
Qed.

Lemma explicit_direction_nonempty tok d : explicit_direction tok = Some d → d ≠ "".
Proof.
  unfold explicit_direction, sub_tokens. intros H.
  apply list_elem_of_lookup_2 in H. by apply filter_nonempty_elem in H.
Qed.

(** C2. [parseSort] throws [InvalidSortError] exactly when some token
    carries an explicit direction sub-token that is non-empty and is neither
    ["asc"] nor ["desc"], and it throws nothing else.  A token without a
    direction sub-token gets the default ascending without an error (an
    explicit direction is never empty, and an empty value given to
    [stringToDirection] is ascending too); a direction sub-token that is
    exactly an accepted value gives that direction; any other one throws.
    Nothing catches the error: the [Pageable] constructor and the
    [paginate] entry point throw it whenever the parser does. *)
Theorem InvalidSortError_iff_invalid_direction :
  (∀ q, parseSort q = Throw InvalidSortError ↔
        ∃ tok d, tok ∈ sort_tokens q ∧ explicit_direction tok = Some d
                 ∧ invalid_direction d)
  ∧ (∀ q e, parseSort q = Throw e → e = InvalidSortError)
  ∧ (∀ tok, explicit_direction tok = None →
            ∃ o, token_order tok = Ok o ∧ Order.direction o = asc)
  ∧ (∀ tok d, explicit_direction tok = Some d → d ≠ "")
  ∧ (∀ dir, isEmpty dir = true → stringToDirection dir = Ok asc)
  ∧ (∀ tok d, explicit_direction tok = Some (Direction_text d) →
              ∃ o, token_order tok = Ok o ∧ Order.direction o = d)
  ∧ (∀ tok d, explicit_direction tok = Some d → invalid_direction d →
              token_order tok = Throw InvalidSortError)
  ∧ (∀ n sz ix q e, truthy (Some q) = true → parseSort q = Throw e →
                    Pageable.new n sz ix (Pageable.Raw q) = Throw e)
  ∧ (∀ A ctx (next : Context → A) v p sz e,
       Query.sort (query ctx) = Some v → truthy (Some v) = true →
       parseSort v = Throw e →
       parseOptionalIntOrThrow (Query.page (query ctx)) = Ok p →
       parseOptionalIntOrThrow (Query.size (query ctx)) = Ok sz →
       paginate ctx next = Throw e).
Proof.
  repeat apply conj.
  - intros q. split.
    + by intros [_ H]%parseSort_Throw.
    + intros (tok & d & Hin & Hd & Hinv). by eapply parseSort_invalid.
  - by intros q e [-> _]%parseSort_Throw.
  - intros tok Hd. exists (Order.make asc (js_index (sub_tokens tok) 0)).
    split; [|done]. apply token_order_Ok. split; [|done]. simpl.
    apply stringToDirection_empty. unfold explicit_direction in Hd.
    apply js_index_JUndefined in Hd. by rewrite Hd.
  - exact explicit_direction_nonempty.
  - exact stringToDirection_empty.
  - intros tok d Hd. exists (Order.make d (js_index (sub_tokens tok) 0)).
    split; [|done]. apply token_order_Ok. split; [|done]. simpl.
    unfold explicit_direction in Hd. apply js_index_JString in Hd.
    rewrite Hd. apply stringToDirection_text.
  - intros tok d Hd Hinv. apply token_order_Throw. eauto.
  - exact Pageable_new_Raw_Throw.
  - intros A ctx next v p sz e Hv Ht Hs Hp Hsz. unfold paginate.
    by rewrite (paginate_pageable_sort_Throw _ _ _ _ _ Hv Ht Hs Hp Hsz).
Qed.

Lemma InvalidSortError_iff_invalid_direction_witness :
  parseSort (QStr "a:foo") = Throw InvalidSortError
  ∧ paginate {| query := Query.make None None (Some (QStr "a:foo")) None;
                state_pageable := None |} (fun _ => tt)
    = Throw InvalidSortError.
Proof.
  split.
  - apply (proj1 InvalidSortError_iff_invalid_direction (QStr "a:foo")).
    exists "a:foo", "foo". split; [left|]. split; [reflexivity|].
    repeat split; discriminate.
  - apply (proj2 (proj2 (proj2 (proj2 (proj2 (proj2 (proj2 (proj2
             InvalidSortError_iff_invalid_direction))))))))
      with (v := QStr "a:foo") (p := None) (sz := None); reflexivity.
Defined.

(** ** The page envelope *)

Local Open Scope Z_scope.

(** For a positive divisor [Math_ceil_div] is the ceiling of the quotient:
    the least integer [c] with [a <= b * c]. *)
Lemma Math_ceil_div_pos a b :
  0 < b → ∃ c, Math_ceil_div a b = Fin c ∧ b * (c - 1) < a ≤ b * c.
Proof.
  intros Hb. exists (- (- a / b)). unfold Math_ceil_div.
  destruct (Z.eqb_spec b 0) as [->|_]; [lia|]. split; [done|].
  pose proof (Z.mul_div_le (- a) b Hb).
  pose proof (Z.mul_succ_div_gt (- a) b Hb). lia.
Qed.

Lemma ceiling_unique a b c c' :
  0 < b → b * (c - 1) < a ≤ b * c → b * (c' - 1) < a ≤ b * c' → c = c'.
Proof. intros Hb H H'. nia. Qed.

Lemma Math_max_Fin a b : Math_max (Fin a) (Fin b) = Fin (Z.max a b).
Proof.
  unfold Math_max, jsnum_leb. destruct (Z.leb_spec a b); f_equal; lia.
Qed.

(** [Math.max(x, 1)] is never the number zero, whatever [x] is. *)
Lemma Math_max_1_not_zero x : Math_max x (Fin 1) ≠ Fin 0.
Proof.
  destruct x as [a| | |]; try done. rewrite Math_max_Fin. intros [=]. lia.
Qed.

Lemma Page_new_totalPages te pg c :
  0 < Pageable.size pg →
  Pageable.size pg * (c - 1) < te ≤ Pageable.size pg * c →
  Page.totalPages (Page.new te pg) = Fin (Z.max c 1).
Proof.
  intros Hs Hc. destruct (Math_ceil_div_pos te _ Hs) as (c' & Hdiv & Hc').
  rewrite (ceiling_unique _ _ _ _ Hs Hc Hc'). simpl.
  by rewrite Hdiv, Math_max_Fin.
Qed.

Lemma Page_new_last te pg c :
  Page.totalPages (Page.new te pg) = Fin c →
  Page.last (Page.new te pg) = true ↔ c - 1 ≤ Pageable.page pg.
Proof.
  simpl. intros ->. simpl. apply Z.leb_le.
Qed.

Lemma Page_new_first te pg :
  Page.first (Page.new te pg) = true ↔ Pageable.page pg = 0.
Proof. simpl. apply bool_decide_eq_true. Qed.

(** C3, as stated, fails twice.  Page 1 of an empty data set is not the
    first page.  And with size 0 the quotient 0/0 is [NaN], so that
    [totalPages] is [NaN] and [last] is false. *)
Lemma Page_new_empty_not_always_first :
  ¬ (Page.totalPages (Page.new 0 (Pageable.make 1 10 None false)) = Fin 1
     ∧ Page.first (Page.new 0 (Pageable.make 1 10 None false)) = true
     ∧ Page.last (Page.new 0 (Pageable.make 1 10 None false)) = true)
  ∧ Page.first (Page.new 0 (Pageable.make 1 10 None false)) = false
  ∧ ¬ (Page.totalPages (Page.new 0 (Pageable.make 0 0 None false)) = Fin 1
       ∧ Page.first (Page.new 0 (Pageable.make 0 0 None false)) = true
       ∧ Page.last (Page.new 0 (Pageable.make 0 0 None false)) = true)
  ∧ Page.totalPages (Page.new 0 (Pageable.make 0 0 None false)) = NaN
  ∧ Page.last (Page.new 0 (Pageable.make 0 0 None false)) = false.
Proof.
  split; [by intros (_ & [=] & _)|]. split; [done|].
  split; [by intros ([=] & _)|]. by split.
Qed.

(** C3, amended.  For every page number [p >= 0] and size [s >= 1], the
    envelope built from [totalElements = 0] has [totalPages = 1] and
    [last = true], and it has [first = true] exactly when [p = 0].  In
    general, for a size of at least 1, [totalPages] is the larger of 1 and
    the ceiling of [totalElements / size]; and for every size and count
    [totalPages] is not zero. *)
Theorem Page_new_empty_data_set (te : Z) (pg : Pageable.t) :
  0 ≤ Pageable.page pg → 1 ≤ Pageable.size pg →
  (Page.totalPages (Page.new 0 pg) = Fin 1
   ∧ Page.last (Page.new 0 pg) = true
   ∧ (Page.first (Page.new 0 pg) = true ↔ Pageable.page pg = 0))
  ∧ (∃ c, Pageable.size pg * (c - 1) < te ≤ Pageable.size pg * c
          ∧ Page.totalPages (Page.new te pg) = Fin (Z.max c 1))
  ∧ (∀ te' pg', Page.totalPages (Page.new te' pg') ≠ Fin 0).
Proof.
  intros Hp Hs.
  assert (Page.totalPages (Page.new 0 pg) = Fin 1) as Htp.
  { rewrite (Page_new_totalPages 0 pg 0); [done|lia..]. }
  split_and!.
  - done.
  - apply (Page_new_last _ _ _ Htp). lia.
  - apply Page_new_first.
  - destruct (Math_ceil_div_pos te (Pageable.size pg)) as (c & _ & Hc); [lia|].
    exists c. split; [done|]. apply Page_new_totalPages; [lia|done].
  - intros te' pg'. apply Math_max_1_not_zero.
Qed.

Lemma Page_new_empty_data_set_witness :
  Page.totalPages (Page.new 0 (Pageable.make 3 5 None false)) = Fin 1
  ∧ Page.last (Page.new 0 (Pageable.make 3 5 None false)) = true.
Proof.
  pose proof (Page_new_empty_data_set 11 (Pageable.make 3 5 None false))
    as H.
  simpl in H. destruct H as [(Htp & Hlast & _) _]; [lia|lia|].
  split; [exact Htp|exact Hlast].
Defined.

(** C4, as stated, fails: with one element and size 1 there is one page,
    and page number 5 is reported as last although 5 is not
    [totalPages - 1 = 0]. *)
Lemma Page_new_last_beyond_range :
  Page.totalPages (Page.new 1 (Pageable.make 5 1 None false)) = Fin 1
  ∧ Page.last (Page.new 1 (Pageable.make 5 1 None false)) = true
  ∧ ¬ (Page.last (Page.new 1 (Pageable.make 5 1 None false)) = true
       ↔ Pageable.page (Pageable.make 5 1 None false) = 1 - 1).
Proof.
  split; [done|]. split; [done|]. intros [H _]. by specialize (H eq_refl).
Qed.

(** C4, amended.  For [totalElements >= 1] and [size >= 1], [totalPages]
    is the ceiling of [totalElements / size], and a page has [last = true]
    exactly when its number is at least [totalPages - 1]; among the page
    numbers below [totalPages] that is exactly the page whose number is
    [totalPages - 1]. *)
Theorem Page_new_last_iff (te : Z) (pg : Pageable.t) :
  1 ≤ te → 1 ≤ Pageable.size pg →
  ∃ c, Pageable.size pg * (c - 1) < te ≤ Pageable.size pg * c
       ∧ Page.totalPages (Page.new te pg) = Fin c
       ∧ (Page.last (Page.new te pg) = true ↔ c - 1 ≤ Pageable.page pg)
       ∧ (Pageable.page pg < c →
          (Page.last (Page.new te pg) = true ↔ Pageable.page pg = c - 1)).
Proof.
  intros Hte Hs.
  destruct (Math_ceil_div_pos te (Pageable.size pg)) as (c & _ & Hc); [lia|].
  assert (1 ≤ c) as Hc1 by nia.
  assert (Page.totalPages (Page.new te pg) = Fin c) as Htp.
  { rewrite (Page_new_totalPages te pg c); [f_equal; lia|lia|done]. }
  exists c. split; [done|]. split; [done|]. split.
  - apply (Page_new_last _ _ _ Htp).
  - intros Hlt. rewrite (Page_new_last _ _ _ Htp). lia.
Qed.

Lemma Page_new_last_iff_witness :
  ∃ c, 5 * (c - 1) < 11 ≤ 5 * c
       ∧ Page.totalPages (Page.new 11 (Pageable.make 2 5 None false)) = Fin c.
Proof.
  destruct (Page_new_last_iff 11 (Pageable.make 2 5 None false))
    as (c & Hc & Htp & _); [lia|simpl; lia|].
  exists c. split; [exact Hc|exact Htp].
Defined.

Local Close Scope Z_scope.

(** ** Order construction *)

Lemma lower_char_is (c : ascii) (lo up : ascii) :
  (∀ c', Ascii.eqb (lower_char c') lo = Ascii.eqb c' lo || Ascii.eqb c' up) →
  lower_char c = lo ↔ c = lo ∨ c = up.
Proof.
  intros Hall. rewrite <- !Ascii.eqb_eq, Hall. apply orb_true_iff.
Qed.

Lemma lower_char_d c' :
  Ascii.eqb (lower_char c') "d" = Ascii.eqb c' "d" || Ascii.eqb c' "D".
Proof. by destruct c' as [[] [] [] [] [] [] [] []]. Qed.

Lemma lower_char_e c' :
  Ascii.eqb (lower_char c') "e" = Ascii.eqb c' "e" || Ascii.eqb c' "E".
Proof. by destruct c' as [[] [] [] [] [] [] [] []]. Qed.

Lemma lower_char_s c' :
  Ascii.eqb (lower_char c') "s" = Ascii.eqb c' "s" || Ascii.eqb c' "S".
Proof. by destruct c' as [[] [] [] [] [] [] [] []]. Qed.

Lemma lower_char_c c' :
  Ascii.eqb (lower_char c') "c" = Ascii.eqb c' "c" || Ascii.eqb c' "C".
Proof. by destruct c' as [[] [] [] [] [] [] [] []]. Qed.

(** Lowercasing gives ["desc"] exactly for the sixteen spellings of it. *)
Lemma toLowerCase_desc d :
  toLowerCase d = Direction_text desc ↔ desc_ignoring_case d.
Proof.
  unfold desc_ignoring_case. split.
  - destruct d as [|c1 [|c2 [|c3 [|c4 [|c5 d]]]]]; try discriminate.
    simpl. intros [= H1 H2 H3 H4]. exists c1, c2, c3, c4. split; [done|].
    rewrite <- (lower_char_is c1 "d" "D"), <- (lower_char_is c2 "e" "E"),
      <- (lower_char_is c3 "s" "S"), <- (lower_char_is c4 "c" "C");
      auto using lower_char_d, lower_char_e, lower_char_s, lower_char_c.
  - intros (c1 & c2 & c3 & c4 & -> & H1 & H2 & H3 & H4). simpl.
    apply (lower_char_is c1 "d" "D") in H1; auto using lower_char_d.
    apply (lower_char_is c2 "e" "E") in H2; auto using lower_char_e.
    apply (lower_char_is c3 "s" "S") in H3; auto using lower_char_s.
    apply (lower_char_is c4 "c" "C") in H4; auto using lower_char_c.
    by rewrite H1, H2, H3, H4.
Qed.

(** C9, as stated, fails for [null]: the default parameter value replaces
    [undefined] only, and [null.toLowerCase()] is a TypeError. *)
Lemma Order_new_null_throws :
  Order.new (JString "name") JNull = Throw TypeError
  ∧ ¬ ∃ o, Order.new (JString "name") JNull = Ok o.
Proof. split; [reflexivity|]. by intros [o [=]]. Qed.

(** C9, amended.  For every property and every direction argument that is
    a text (typos and the empty text included) or is absent, the
    constructor succeeds, stores the property unchanged, and sets the
    direction to descending exactly when the argument is a text that reads
    [desc] with the case of its letters ignored, and to ascending for
    every other argument. *)
Theorem Order_new_lenient (property direction : jsval) :
  direction ≠ JNull →
  ∃ o, Order.new property direction = Ok o
       ∧ Order.property o = property
       ∧ (Order.direction o = desc ↔
          ∃ d, direction = JString d ∧ desc_ignoring_case d)
       ∧ (Order.direction o ≠ desc → Order.direction o = asc).
Proof.
  intros Hnull. destruct direction as [| |d]; [|done|].
  - exists (Order.make asc property). split_and!; try done.
    split; [done|]. by intros (d & [=] & _).
  - eexists. split; [reflexivity|]. simpl. split; [done|]. split.
    + case_bool_decide as Hd.
      * split; [|done]. intros _. exists d. split; [done|].
        by apply toLowerCase_desc.
      * split; [done|]. intros (d' & [= <-] & Hd').
        by apply toLowerCase_desc in Hd'.
    + by case_bool_decide.
Qed.

Lemma Order_new_lenient_witness :
  ∃ o, Order.new (JString "name") (JString "DeSc") = Ok o
       ∧ Order.property o = JString "name".
Proof.
  destruct (Order_new_lenient (JString "name") (JString "DeSc"))
    as (o & Ho & Hp & _); [discriminate|].
  exists o. split; [exact Ho|exact Hp].
Defined.

(** ** The entry point *)

#[local] Arguments truthy : simpl never.

Lemma parseOptionalIntOrThrow_Ok v r :
  parseOptionalIntOrThrow v = Ok r ↔ ¬ unparseable v ∧ r = parsed_param v.
Proof.
  unfold parseOptionalIntOrThrow, unparseable, parsed_param, parseIntOrThrow.
  destruct v as [x|].
  - remember (truthy (Some x)) as t eqn:Ht. clear Ht.
    destruct t; simpl; [destruct (parseInt (ToString x)) as [n|]; simpl|].
    + split; [intros [= <-]|by intros [_ ->]]. split; [|done]. by intros [_ [=]].
    + split; [done|]. intros [H _]. by destruct H.
    + split; [intros [= <-]|by intros [_ ->]]. split; [|done]. by intros [[=] _].
  - simpl. split; [intros [= <-]|by intros [_ ->]].
    split; [|done]. by intros [[=] _].
Qed.

Lemma parseOptionalIntOrThrow_Throw v e :
  parseOptionalIntOrThrow v = Throw e →
  unparseable v ∧ ∃ m, e = NumberFormatError m.
Proof.
  unfold parseOptionalIntOrThrow, unparseable, parsed_param, parseIntOrThrow.
  destruct v as [x|]; [|done].
  remember (truthy (Some x)) as t eqn:Ht. clear Ht.
  destruct t; simpl; [|done].
  destruct (parseInt (ToString x)) as [n|]; simpl; [done|].
  intros [= <-]. eauto.
Qed.

Lemma unparseable_Throw v :
  unparseable v → ∃ m, parseOptionalIntOrThrow v = Throw (NumberFormatError m).
Proof.
  intros Hv. destruct (parseOptionalIntOrThrow v) as [r|e] eqn:Hr.
  - apply parseOptionalIntOrThrow_Ok in Hr as [Hr _]. by destruct Hr.
  - apply parseOptionalIntOrThrow_Throw in Hr as [_ [m ->]]. eauto.
Qed.

(** What the entry point hands to the [Pageable] constructor as sort. *)
Lemma Pageable_new_from_query n sz ix (sort : option qvalue) pg :
  Pageable.new (Some n) (Some sz) (Some ix)
    (from_option Pageable.Raw Pageable.Absent
       (if truthy sort then sort else None)) = Ok pg ↔
  Pageable.page pg = n ∧ Pageable.size pg = sz ∧ Pageable.indexed pg = ix
  ∧ if truthy sort
    then ∃ v s, sort = Some v ∧ parseSort v = Ok s ∧ Pageable.sort pg = Some s
    else Pageable.sort pg = None.
Proof.
  unfold Pageable.new. destruct (truthy sort) eqn:Ht.
  - destruct sort as [v|]; [|done]. simpl. rewrite Ht. split.
    + destruct (parseSort v) as [s|e] eqn:Hs; [|done]. simpl.
      intros [= <-]. simpl. do 3 (split; [done|]). exists v, s. by rewrite Hs.
    + intros (<- & <- & <- & v' & s & [= <-] & -> & Hs). simpl.
      destruct pg; simpl in *. by rewrite Hs.
  - simpl. split.
    + by intros [= <-].
    + intros (<- & <- & <- & Hs). destruct pg; simpl in *. by rewrite Hs.
Qed.

Lemma paginate_pageable_Ok q pg :
  paginate_pageable q = Ok pg ↔
  ¬ unparseable (Query.page q) ∧ ¬ unparseable (Query.size q)
  ∧ Pageable.page pg = or_default (parsed_param (Query.page q)) 0
  ∧ Pageable.size pg = or_default (parsed_param (Query.size q)) 10
  ∧ Pageable.indexed pg = bool_decide (Query.indexed q = Some (QStr "true"))
  ∧ if truthy (Query.sort q)
    then ∃ v s, Query.sort q = Some v ∧ parseSort v = Ok s
                ∧ Pageable.sort pg = Some s
    else Pageable.sort pg = None.
Proof.
  unfold paginate_pageable. rewrite bind_Ok. split.
  - intros (p & [Hp ->]%parseOptionalIntOrThrow_Ok & Hrest).
    apply bind_Ok in Hrest as (sz & [Hsz ->]%parseOptionalIntOrThrow_Ok & Hnew).
    apply Pageable_new_from_query in Hnew as (Hpage & Hsize & Hix & Hsort).
    by do 5 (split; [done|]).
  - intros (Hp & Hsz & Hpage & Hsize & Hix & Hsort).
    exists (parsed_param (Query.page q)).
    split; [by apply parseOptionalIntOrThrow_Ok|].
    apply bind_Ok. exists (parsed_param (Query.size q)).
    split; [by apply parseOptionalIntOrThrow_Ok|].
    by apply Pageable_new_from_query.
Qed.

Lemma paginate_pageable_Throw q e :
  paginate_pageable q = Throw e →
  (unparseable (Query.page q) ∨ unparseable (Query.size q))
  ∧ (∃ m, e = NumberFormatError m)
  ∨ e = InvalidSortError.
Proof.
  unfold paginate_pageable. rewrite bind_Throw.
  intros [Hp|(p & _ & Hrest)].
  { apply parseOptionalIntOrThrow_Throw in Hp as [Hp Hm]. left. eauto. }
  apply bind_Throw in Hrest as [Hsz|(sz & _ & Hnew)].
  { apply parseOptionalIntOrThrow_Throw in Hsz as [Hsz Hm]. left. eauto. }
  right. unfold Pageable.new in Hnew.
  destruct (truthy (Query.sort q)) eqn:Ht; [|done].
  destruct (Query.sort q) as [v|]; [|done]. simpl in Hnew. rewrite Ht in Hnew.
  destruct (parseSort v) as [s|e'] eqn:Hs; [done|]. simpl in Hnew.
  injection Hnew as <-. by destruct (parseSort_Throw _ _ Hs) as [-> _].
Qed.

Lemma paginate_Ok {A} ctx (next : Context → A) ctx' r :
  paginate ctx next = Ok (ctx', r) ↔
  ∃ pg, paginate_pageable (query ctx) = Ok pg
        ∧ ctx' = {| query := query ctx; state_pageable := Some pg |}
        ∧ r = next ctx'.
Proof.
  unfold paginate. rewrite bind_Ok. split.
  - intros (pg & Hpg & [= <- <-]). by exists pg.
  - intros (pg & Hpg & -> & ->). by exists pg.
Qed.

Lemma paginate_Throw {A} ctx (next : Context → A) e :
  paginate ctx next = Throw e ↔ paginate_pageable (query ctx) = Throw e.
Proof.
  unfold paginate. rewrite bind_Throw. split; [|by left].
  by intros [H|(pg & _ & [=])].
Qed.

Local Open Scope Z_scope.

(** C7, as stated, fails for the size: the text ["0"] is present, is not
    empty and parses to the integer 0, but the size stored is 10. *)
Lemma paginate_size_zero_not_stored :
  parsed_param (Some (QStr "0")) = Some 0
  ∧ paginate {| query := Query.make None (Some (QStr "0")) None None;
                state_pageable := None |} (fun _ => tt)
    = Ok ({| query := Query.make None (Some (QStr "0")) None None;
             state_pageable := Some (Pageable.make 0 10 None false) |}, tt)
  ∧ ¬ (∀ pg,
         paginate_pageable (Query.make None (Some (QStr "0")) None None)
         = Ok pg →
         Pageable.size pg = default 10 (parsed_param (Some (QStr "0")))).
Proof.
  split; [done|]. split; [done|]. intros H.
  by specialize (H (Pageable.make 0 10 None false) eq_refl).
Qed.

(** C7, amended.  For every request query the entry point throws
    [NumberFormatError] exactly when the page or the size parameter is
    present and non-empty but does not parse as an integer; when neither is
    the case and the sort parameter parses, it returns.  The [Pageable] it
    stores has as page the integer parsed from the page parameter when that
    is present and non-empty, else 0; as size the integer parsed from the
    size parameter when that is present, non-empty and not 0, else 10; and
    [indexed] true exactly when the raw indexed value is the text
    ["true"].  The stored value is then given to the next handler. *)
Theorem paginate_reads_parameters (q : Query.t) :
  ((∃ m, paginate_pageable q = Throw (NumberFormatError m)) ↔
   unparseable (Query.page q) ∨ unparseable (Query.size q))
  ∧ (¬ unparseable (Query.page q) → ¬ unparseable (Query.size q) →
     sort_parses q → ∃ pg, paginate_pageable q = Ok pg)
  ∧ (∀ pg, paginate_pageable q = Ok pg →
       Pageable.page pg = default 0 (parsed_param (Query.page q))
       ∧ Pageable.size pg =
           match parsed_param (Query.size q) with
           | Some n => if n =? 0 then 10 else n
           | None => 10
           end
       ∧ (Pageable.indexed pg = true ↔ Query.indexed q = Some (QStr "true")))
  ∧ (∀ A ctx (next : Context → A), query ctx = q →
       match paginate ctx next with
       | Ok (ctx', r) =>
           ∃ pg, paginate_pageable q = Ok pg
                 ∧ state_pageable ctx' = Some pg ∧ r = next ctx'
       | Throw e => paginate_pageable q = Throw e
       end).
Proof.
  split; [|split; [|split]].
  - split.
    + intros [m Hm]. apply paginate_pageable_Throw in Hm as [[H _]|[=]]. done.
    + unfold paginate_pageable. intros [Hp|Hsz].
      * destruct (unparseable_Throw _ Hp) as [m ->]. by exists m.
      * destruct (parseOptionalIntOrThrow (Query.page q)) as [p|e] eqn:Hp.
        -- destruct (unparseable_Throw _ Hsz) as [m ->]. by exists m.
        -- apply parseOptionalIntOrThrow_Throw in Hp as [_ [m ->]].
           by exists m.
  - intros Hp Hsz Hsort.
    destruct (truthy (Query.sort q)) eqn:Ht.
    + destruct (Query.sort q) as [v|] eqn:Hv; [|done].
      destruct (Hsort v Hv Ht) as [s Hs].
      exists (Pageable.make (or_default (parsed_param (Query.page q)) 0)
                (or_default (parsed_param (Query.size q)) 10) (Some s)
                (bool_decide (Query.indexed q = Some (QStr "true")))).
      apply paginate_pageable_Ok. do 5 (split; [done|]).
      rewrite Hv, Ht. by exists v, s.
    + exists (Pageable.make (or_default (parsed_param (Query.page q)) 0)
                (or_default (parsed_param (Query.size q)) 10) None
                (bool_decide (Query.indexed q = Some (QStr "true")))).
      apply paginate_pageable_Ok. do 5 (split; [done|]). by rewrite Ht.
  - intros pg (_ & _ & Hpage & Hsize & Hix & _)%paginate_pageable_Ok.
    split; [|split].
    + rewrite Hpage. destruct (parsed_param (Query.page q)) as [n|]; [|done].
      simpl. by destruct (Z.eqb_spec n 0) as [->|].
    + by rewrite Hsize.
    + rewrite Hix. apply bool_decide_eq_true.
  - intros A ctx next <-. destruct (paginate ctx next) as [[ctx' r]|e] eqn:Hrun.
    + apply paginate_Ok in Hrun as (pg & Hpg & -> & ->). by exists pg.
    + by apply paginate_Throw in Hrun.
Qed.

Lemma paginate_reads_parameters_witness :
  ∃ pg, paginate_pageable
          (Query.make (Some (QStr "2")) (Some (QStr "5"))
             (Some (QArr ["name"; "age:desc"])) (Some (QStr "true"))) = Ok pg
        ∧ Pageable.page pg = 2 ∧ Pageable.size pg = 5
        ∧ Pageable.indexed pg = true.
Proof.
  pose proof (paginate_reads_parameters
                (Query.make (Some (QStr "2")) (Some (QStr "5"))
                   (Some (QArr ["name"; "age:desc"])) (Some (QStr "true"))))
    as (_ & Hreturns & Hfields & _).
  destruct Hreturns as [pg Hpg].
  - intros [_ Hnone]. vm_compute in Hnone. discriminate Hnone.
  - intros [_ Hnone]. vm_compute in Hnone. discriminate Hnone.
  - intros v Hv _. injection Hv as <-. eexists. vm_compute. reflexivity.
  - exists pg. destruct (Hfields pg Hpg) as (Hpage & Hsize & Hix).
    split; [exact Hpg|]. split; [exact Hpage|]. split; [exact Hsize|].
    apply Hix. reflexivity.
Defined.

(** The [Pageable] is built whenever neither number is unparseable and
    the sort parses. *)
Lemma paginate_pageable_returns (q : Query.t) :
  ¬ unparseable (Query.page q) → ¬ unparseable (Query.size q) →
  sort_parses q → ∃ pg, paginate_pageable q = Ok pg.
Proof.
  intros Hp Hsz Hsort.
  destruct (truthy (Query.sort q)) eqn:Ht.
  - destruct (Query.sort q) as [v|] eqn:Hv; [|done].
    destruct (Hsort v Hv Ht) as [s Hs].
    exists (Pageable.make (or_default (parsed_param (Query.page q)) 0)
              (or_default (parsed_param (Query.size q)) 10) (Some s)
              (bool_decide (Query.indexed q = Some (QStr "true")))).
    apply paginate_pageable_Ok. do 5 (split; [done|]).
    rewrite Hv, Ht. by exists v, s.
  - exists (Pageable.make (or_default (parsed_param (Query.page q)) 0)
              (or_default (parsed_param (Query.size q)) 10) None
              (bool_decide (Query.indexed q = Some (QStr "true")))).
    apply paginate_pageable_Ok. do 5 (split; [done|]). by rewrite Ht.
Qed.

(** What falsy coalescing does to the two numbers of a built
    [Pageable]. *)
Lemma paginate_pageable_zero_default (q : Query.t) (pg : Pageable.t) :
  paginate_pageable q = Ok pg →
  (parsed_param (Query.size q) = Some 0 → Pageable.size pg = 10)
  ∧ (parsed_param (Query.page q) = Some 0 → Pageable.page pg = 0)
  ∧ (∀ n, n ≠ 0 → parsed_param (Query.size q) = Some n →
          Pageable.size pg = n)
  ∧ (∀ n, n ≠ 0 → parsed_param (Query.page q) = Some n →
          Pageable.page pg = n)
  ∧ Pageable.size pg ≠ 0.
Proof.
  intros (_ & _ & Hpage & Hsize & _)%paginate_pageable_Ok.
  rewrite Hpage, Hsize. split_and!.
  - by intros ->.
  - by intros ->.
  - intros n Hn ->. simpl. by destruct (Z.eqb_spec n 0).
  - intros n Hn ->. simpl. by destruct (Z.eqb_spec n 0).
  - destruct (parsed_param (Query.size q)) as [n|]; [|done].
    simpl. by destruct (Z.eqb_spec n 0).
Qed.

(** C10.  The entry point [paginate] returns whenever neither number is
    unparseable and the sort parses; it then leaves the query as it was,
    stores a [Pageable] in the state and runs [next] on the updated
    context.  In every [Pageable] it stores, a page or size value that
    parses to 0 has been replaced by the default: a size that parses to 0
    gives the size 10, a page that parses to 0 gives the page 0, which is
    also the default, and the stored size is never 0.  A value that parses
    to a non-zero integer, negative ones included, is stored as it is.  For
    the query with size ["0"] the stored size is 10; for the query with
    page ["0"] the stored value is that of the empty query; for page
    ["-3"] and size ["-5"] the stored page is -3 and the stored size
    -5. *)
Theorem paginate_zero_takes_default :
  (∀ A (ctx : Context) (next : Context → A),
     ¬ unparseable (Query.page (query ctx)) →
     ¬ unparseable (Query.size (query ctx)) →
     sort_parses (query ctx) →
     ∃ pg, paginate ctx next
           = Ok ({| query := query ctx; state_pageable := Some pg |},
                 next {| query := query ctx; state_pageable := Some pg |}))
  ∧ (∀ A (ctx : Context) (next : Context → A) ctx' r,
       paginate ctx next = Ok (ctx', r) →
       ∃ pg, state_pageable ctx' = Some pg
             ∧ query ctx' = query ctx ∧ r = next ctx'
             ∧ (parsed_param (Query.size (query ctx)) = Some 0 →
                Pageable.size pg = 10)
             ∧ (parsed_param (Query.page (query ctx)) = Some 0 →
                Pageable.page pg = 0)
             ∧ (∀ n, n ≠ 0 → parsed_param (Query.size (query ctx)) = Some n →
                     Pageable.size pg = n)
             ∧ (∀ n, n ≠ 0 → parsed_param (Query.page (query ctx)) = Some n →
                     Pageable.page pg = n)
             ∧ Pageable.size pg ≠ 0)
  ∧ paginate {| query := Query.make None (Some (QStr "0")) None None;
                state_pageable := None |} state_pageable
    = Ok ({| query := Query.make None (Some (QStr "0")) None None;
             state_pageable := Some (Pageable.make 0 10 None false) |},
          Some (Pageable.make 0 10 None false))
  ∧ paginate {| query := Query.make (Some (QStr "0")) None None None;
                state_pageable := None |} state_pageable
    = Ok ({| query := Query.make (Some (QStr "0")) None None None;
             state_pageable := Some (Pageable.make 0 10 None false) |},
          Some (Pageable.make 0 10 None false))
  ∧ paginate {| query := Query.make None None None None;
                state_pageable := None |} state_pageable
    = Ok ({| query := Query.make None None None None;
             state_pageable := Some (Pageable.make 0 10 None false) |},
          Some (Pageable.make 0 10 None false))
  ∧ paginate
      {| query := Query.make (Some (QStr "-3")) (Some (QStr "-5")) None None;
         state_pageable := None |} state_pageable
    = Ok ({| query :=
               Query.make (Some (QStr "-3")) (Some (QStr "-5")) None None;
             state_pageable := Some (Pageable.make (-3) (-5) None false) |},
          Some (Pageable.make (-3) (-5) None false)).
Proof.
  split; [|split; [|by repeat split]].
  - intros A ctx next Hp Hsz Hsort.
    destruct (paginate_pageable_returns _ Hp Hsz Hsort) as [pg Hpg].
    exists pg. unfold paginate. by rewrite Hpg.
  - intros A ctx next ctx' r (pg & Hpg & -> & ->)%paginate_Ok.
    exists pg. do 3 (split; [done|]).
    by apply paginate_pageable_zero_default.
Qed.

Lemma paginate_zero_takes_default_witness :
  ∃ pg,
    state_pageable
      {| query := Query.make None (Some (QStr "0")) None None;
         state_pageable := Some (Pageable.make 0 10 None false) |} = Some pg
    ∧ Pageable.size pg = 10.
Proof.
  destruct (proj1 (proj2 paginate_zero_takes_default) unit
              {| query := Query.make None (Some (QStr "0")) None None;
                 state_pageable := None |} (fun _ => tt)
              {| query := Query.make None (Some (QStr "0")) None None;
                 state_pageable := Some (Pageable.make 0 10 None false) |}
              tt eq_refl)
    as (pg & Hstored & _ & _ & Hzero & _).
  exists pg. split; [exact Hstored|]. apply Hzero. reflexivity.
Defined.

Local Close Scope Z_scope.

(** ** The iterator of a Sort *)

(** From the state with counter [k] the loop stops after the [n] positions
    that remain, whatever fuel is left beyond that.  It yields the orders
    after position [k], and [undefined] once if position [k] existed. *)
Lemma for_of_loop_from (vs : list Order.t) (n k fuel : nat) (d : bool) :
  length vs = (k + n)%nat → (n < fuel)%nat →
  Sort.for_of_loop fuel
    {| Sort.it_values := vs; Sort.it_count := k; Sort.it_done := d |}
  = Some (map Some (drop (S k) vs)
          ++ match n with O => [] | S _ => [None] end).
Proof.
  revert k fuel d. induction n as [|n IH]; intros k fuel d Hlen Hfuel;
    (destruct fuel as [|fuel]; [lia|]); cbn [Sort.for_of_loop Sort.next];
    cbn [Sort.it_values Sort.it_count Sort.done Sort.value].
  - replace (length vs <=? k)%nat with true by (symmetry; apply Nat.leb_le; lia).
    rewrite drop_ge by lia. reflexivity.
  - replace (length vs <=? k)%nat with false
      by (symmetry; apply Nat.leb_gt; lia).
    rewrite Nat.add_1_r, (IH (S k) fuel) by lia. cbn [fmap option_fmap option_map].
    f_equal. destruct n as [|n].
    + rewrite (lookup_ge_None_2 vs (S k)) by lia.
      rewrite !drop_ge by lia. reflexivity.
    + destruct (lookup_lt_is_Some_2 vs (S k)) as [x Hx]; [lia|].
      rewrite Hx, (drop_S _ _ _ Hx). reflexivity.
Qed.

(** C8 does not hold of the source.  [next] reads [values[count += 1]],
    the element after the one the counter stood at, so an iteration never
    yields the first order and yields [undefined] once after the last one.
    For the orders a, b it yields b and [undefined].  The iteration does
    terminate, within one call more than there are orders, and a new
    iteration starts from a fresh counter. *)
Theorem Sort_iteration_skips_first_order :
  (∀ o os fuel, (S (length os) < fuel)%nat →
     Sort.for_of_loop fuel (Sort.iter (Sort.make (o :: os)))
     = Some (map Some os ++ [None]))
  ∧ (∀ fuel, Sort.for_of_loop (S fuel) (Sort.iter (Sort.make [])) = Some [])
  ∧ Sort.for_of_loop 3
      (Sort.iter (Sort.make [Order.make asc (JString "a");
                             Order.make desc (JString "b")]))
    = Some [Some (Order.make desc (JString "b")); None].
Proof.
  split; [|split; [|reflexivity]].
  - intros o os fuel Hfuel. unfold Sort.iter. cbn [Sort.orders].
    rewrite (for_of_loop_from (o :: os) (S (length os)) 0 fuel); [done| |done].
    simpl. lia.
  - intros fuel. reflexivity.
Qed.

Lemma Sort_iteration_skips_first_order_witness :
  Sort.for_of_loop 5
    (Sort.iter (Sort.make [Order.make asc (JString "a");
                           Order.make desc (JString "b");
                           Order.make asc (JString "c")]))
  = Some [Some (Order.make desc (JString "b"));
          Some (Order.make asc (JString "c")); None].
Proof.
  apply (proj1 Sort_iteration_skips_first_order
           (Order.make asc (JString "a"))
           [Order.make desc (JString "b"); Order.make asc (JString "c")] 5%nat).
  simpl. lia.
Defined.

(** ** Shape conversion and map *)

(** A [Pageable] rebuilt from the fields of a page never runs the parser
    and never throws. *)
Lemma Pageable_new_of_sort n sz ix srt :
  Pageable.new (Some n) (Some sz) (Some ix) (Pageable.of_sort srt)
  = Ok (Pageable.make n sz srt ix).
Proof. by destruct srt. Qed.

(** The envelope depends on the page, size and sort of the [Pageable]
    only. *)
Lemma Page_new_rebuilt te pg ix :
  Page.new te
    (Pageable.make (Page.number (Page.new te pg)) (Page.size (Page.new te pg))
       (Page.sort (Page.new te pg)) ix)
  = Page.new te pg.
Proof. reflexivity. Qed.

Lemma mapValues_lookup {T R} (object : gmap string T) (f : T → string → R) k :
  mapValues object f !! k = (fun v => f v k) <$> object !! k.
Proof.
  unfold mapValues. rewrite map_lookup_imap. by destruct (object !! k).
Qed.

Lemma mapValues_size {T R} (object : gmap string T) (f : T → string → R) :
  size (mapValues object f) = size object.
Proof.
  rewrite <- !(size_dom (D := gset string)). f_equal.
  apply dom_imap_L. intros k. rewrite elem_of_dom. split.
  - intros [v Hv]. exists v. split; [done|]. by eexists.
  - intros (v & Hv & _). by exists v.
Qed.

Section content_with_id.
Context {I T : Type} `{!PropertyKey I, !HasId I T}.

Lemma keyBy_snoc (xs : list T) (x : T) :
  keyBy (xs ++ [x]) = <[toKey (id_of x) := x]> (keyBy xs).
Proof. unfold keyBy. by rewrite foldl_snoc. Qed.

(** Last write wins: a key holds the last element stored under it. *)
Lemma keyBy_lookup (xs : list T) (k : string) :
  keyBy xs !! k = last (filter (fun x => toKey (id_of x) = k) xs).
Proof.
  induction xs as [|x xs IH] using rev_ind; [done|].
  rewrite keyBy_snoc, filter_app, filter_cons, filter_nil.
  destruct (decide (toKey (id_of x) = k)) as [<-|Hne].
  - by rewrite lookup_insert_eq, last_snoc.
  - by rewrite lookup_insert_ne, app_nil_r.
Qed.

Lemma keyBy_lookup_elem (xs : list T) (x : T) :
  x ∈ xs →
  ∃ y, keyBy xs !! toKey (id_of x) = Some y ∧ y ∈ xs
       ∧ toKey (id_of y) = toKey (id_of x).
Proof.
  intros Hx. rewrite keyBy_lookup.
  destruct (last (filter (fun y => toKey (id_of y) = toKey (id_of x)) xs))
    as [y|] eqn:Hlast.
  - exists y. split; [done|]. apply last_Some_elem_of in Hlast.
    by apply list_elem_of_filter in Hlast as [? ?].
  - apply last_None in Hlast.
    assert (x ∈ filter (fun y => toKey (id_of y) = toKey (id_of x)) xs) as Hin
      by by apply list_elem_of_filter.
    rewrite Hlast in Hin. by apply not_elem_of_nil in Hin.
Qed.

(** C5.  For every [IndexablePage] (one built by its constructor), [toJSON]
    with [indexed = true] returns an [IndexedPage] with the same envelope,
    whose [ids] are the [id] fields of the content elements in content
    order and whose [index] holds, under the key of an id, the last content
    element with that key; so every id of the content is mapped to an
    element carrying it.  With [indexed = false] it returns an [ArrayPage]
    with the same envelope and the content unchanged, and every call on the
    same instance returns that same value. *)
Theorem IndexablePage_toJSON_shapes
    (content : option (list T)) (te : Z) (pg : Pageable.t) :
  let this := IndexablePage.new content te pg in
  (Pageable.indexed pg = true →
   ∃ p : IndexedPage.t I T,
     IndexablePage.toJSON this = Ok (AsIndexed p)
     ∧ IndexedPage.ids p = map id_of (IndexablePage.content this)
     ∧ (∀ k, IndexedPage.index p !! k
             = last (filter (fun x => toKey (id_of x) = k)
                       (IndexablePage.content this)))
     ∧ (∀ x, x ∈ IndexablePage.content this →
             ∃ y, IndexedPage.index p !! toKey (id_of x) = Some y
                  ∧ y ∈ IndexablePage.content this
                  ∧ toKey (id_of y) = toKey (id_of x))
     ∧ IndexedPage.base p = IndexablePage.base this
     ∧ IndexedPage.numberOfElements p = size (IndexedPage.index p))
  ∧ (Pageable.indexed pg = false →
     ∃ p : ArrayPage.t T,
       IndexablePage.toJSON (I := I) this = Ok (AsArray p)
       ∧ ArrayPage.content p = IndexablePage.content this
       ∧ ArrayPage.base p = IndexablePage.base this
       ∧ ArrayPage.numberOfElements p = IndexablePage.numberOfElements this
       ∧ ∀ r1 r2, IndexablePage.toJSON (I := I) this = r1 →
                  IndexablePage.toJSON (I := I) this = r2 →
                  r1 = Ok (AsArray p) ∧ r2 = Ok (AsArray p)).
Proof.
  intros this. split; intros Hix.
  - eexists. unfold IndexablePage.toJSON, IndexablePage.own_pageable.
    subst this. cbn [IndexablePage.new IndexablePage.indexed
                     IndexablePage.base IndexablePage.content].
    rewrite Hix, Pageable_new_of_sort. cbn [mbind result_bind mret result_ret].
    split; [reflexivity|]. cbn [IndexedPage.new IndexedPage.ids
      IndexedPage.index IndexedPage.base IndexedPage.numberOfElements
      Page.totalElements Page.new].
    split; [done|]. split; [apply keyBy_lookup|].
    split; [apply keyBy_lookup_elem|]. done.
  - assert (IndexablePage.toJSON (I := I) this
            = Ok (AsArray (ArrayPage.new (Some (IndexablePage.content this))
                             te (Pageable.make (Pageable.page pg)
                                   (Pageable.size pg) (Pageable.sort pg)
                                   false)))) as Hjson.
    { unfold IndexablePage.toJSON, IndexablePage.own_pageable. subst this.
      cbn [IndexablePage.new IndexablePage.indexed IndexablePage.base
           IndexablePage.content].
      by rewrite Hix, Pageable_new_of_sort. }
    eexists. split; [exact Hjson|]. split; [done|]. split; [done|].
    split; [done|]. intros r1 r2 <- <-. by rewrite Hjson.
Qed.

End content_with_id.

Lemma IndexablePage_toJSON_shapes_witness :
  ∃ p : ArrayPage.t person,
    IndexablePage.toJSON (I := Z)
      (IndexablePage.new (Some people) 2 (Pageable.make 0 20 None false))
    = Ok (AsArray p)
    ∧ ArrayPage.content p = people.
Proof.
  destruct (proj2 (IndexablePage_toJSON_shapes (I := Z) (Some people) 2
                     (Pageable.make 0 20 None false)) eq_refl)
    as (p & Hjson & Hcontent & _).
  exists p. split; [exact Hjson|exact Hcontent].
Defined.

Section page_map.
Context {I T R : Type}.

Lemma ArrayPage_map_eq (f : T → nat → R) content te pg :
  ArrayPage.map f (ArrayPage.new content te pg)
  = Ok (ArrayPage.new
          (Some (imap (fun i x => f x i) (default [] content))) te
          (Pageable.make (Pageable.page pg) (Pageable.size pg)
             (Pageable.sort pg) false)).
Proof.
  unfold ArrayPage.map, ArrayPage.map_pageable.
  cbn [ArrayPage.new ArrayPage.base ArrayPage.content].
  by rewrite Pageable_new_of_sort.
Qed.

Lemma IndexedPage_map_eq (f : T → string → R) (ids : list I) index te pg :
  IndexedPage.map f (IndexedPage.new ids index te pg)
  = Ok (IndexedPage.new ids (mapValues index f) te
          (Pageable.make (Pageable.page pg) (Pageable.size pg)
             (Pageable.sort pg) true)).
Proof.
  unfold IndexedPage.map, IndexedPage.map_pageable.
  cbn [IndexedPage.new IndexedPage.base IndexedPage.index IndexedPage.ids].
  by rewrite Pageable_new_of_sort.
Qed.

Lemma IndexablePage_map_eq (f : T → nat → R) content te pg :
  IndexablePage.map f (IndexablePage.new content te pg)
  = Ok (IndexablePage.new
          (Some (imap (fun i x => f x i) (default [] content))) te
          (Pageable.make (Pageable.page pg) (Pageable.size pg)
             (Pageable.sort pg) (Pageable.indexed pg))).
Proof.
  unfold IndexablePage.map, IndexablePage.own_pageable.
  cbn [IndexablePage.new IndexablePage.base IndexablePage.content
       IndexablePage.indexed].
  by rewrite Pageable_new_of_sort.
Qed.

(** C6.  For each of the three page variants (built by its constructor)
    and every transform, [map] returns a new page with the very same
    envelope: [totalElements], [number], [size], [sort], [totalPages],
    [first] and [last]; and with the same [numberOfElements].  On an
    [ArrayPage] and an [IndexablePage] position [i] of the new content is
    the transform of position [i] of the old one; on an [IndexedPage] the
    [ids] are unchanged and every key of the index holds the transform of
    what it held.  The [Pageable] that [ArrayPage.map] builds has
    [indexed = false], the one [IndexedPage.map] builds has
    [indexed = true], both with the page's number, size and sort;
    [IndexablePage.map] keeps the [indexed] flag. *)
Theorem map_preserves_envelope (te : Z) (pg : Pageable.t) :
  (∀ (content : option (list T)) (f : T → nat → R),
     let this := ArrayPage.new content te pg in
     ∃ pg' p',
       ArrayPage.map_pageable this = Ok pg'
       ∧ pg' = Pageable.make (Page.number (ArrayPage.base this))
                 (Page.size (ArrayPage.base this))
                 (Page.sort (ArrayPage.base this)) false
       ∧ ArrayPage.map f this = Ok p'
       ∧ ArrayPage.base p' = ArrayPage.base this
       ∧ ArrayPage.numberOfElements p' = ArrayPage.numberOfElements this
       ∧ ∀ i, ArrayPage.content p' !! i
              = (fun x => f x i) <$> ArrayPage.content this !! i)
  ∧ (∀ (ids : list I) (index : gmap string T) (f : T → string → R),
       let this := IndexedPage.new ids index te pg in
       ∃ pg' p',
         IndexedPage.map_pageable this = Ok pg'
         ∧ pg' = Pageable.make (Page.number (IndexedPage.base this))
                   (Page.size (IndexedPage.base this))
                   (Page.sort (IndexedPage.base this)) true
         ∧ IndexedPage.map f this = Ok p'
         ∧ IndexedPage.base p' = IndexedPage.base this
         ∧ IndexedPage.numberOfElements p' = IndexedPage.numberOfElements this
         ∧ IndexedPage.ids p' = IndexedPage.ids this
         ∧ ∀ k, IndexedPage.index p' !! k
                = (fun v => f v k) <$> IndexedPage.index this !! k)
  ∧ (∀ (content : option (list T)) (f : T → nat → R),
       let this := IndexablePage.new content te pg in
       ∃ p',
         IndexablePage.map f this = Ok p'
         ∧ IndexablePage.base p' = IndexablePage.base this
         ∧ IndexablePage.numberOfElements p'
           = IndexablePage.numberOfElements this
         ∧ IndexablePage.indexed p' = IndexablePage.indexed this
         ∧ ∀ i, IndexablePage.content p' !! i
                = (fun x => f x i) <$> IndexablePage.content this !! i).
Proof.
  split; [|split].
  - intros content f this. subst this. do 2 eexists.
    split; [apply Pageable_new_of_sort|]. split; [reflexivity|].
    split; [apply ArrayPage_map_eq|].
    cbn [ArrayPage.new ArrayPage.base ArrayPage.numberOfElements
         ArrayPage.content default].
    split; [reflexivity|]. split; [apply length_imap|].
    intros i. apply list_lookup_imap.
  - intros ids index f this. subst this. do 2 eexists.
    split; [apply Pageable_new_of_sort|]. split; [reflexivity|].
    split; [apply IndexedPage_map_eq|].
    cbn [IndexedPage.new IndexedPage.base IndexedPage.numberOfElements
         IndexedPage.ids IndexedPage.index].
    split; [reflexivity|]. split; [apply mapValues_size|].
    split; [reflexivity|]. intros k. apply mapValues_lookup.
  - intros content f this. subst this. eexists.
    split; [apply IndexablePage_map_eq|].
    cbn [IndexablePage.new IndexablePage.base IndexablePage.numberOfElements
         IndexablePage.content IndexablePage.indexed default].
    split; [reflexivity|]. split; [apply length_imap|].
    split; [reflexivity|]. intros i. apply list_lookup_imap.
Qed.

End page_map.

Lemma map_preserves_envelope_witness :
  ∃ p' : ArrayPage.t string,
    ArrayPage.map (fun x _ => firstName x)
      (ArrayPage.new (Some people) 2 (Pageable.make 0 20 None false))
    = Ok p'
    ∧ ArrayPage.base p'
      = ArrayPage.base
          (ArrayPage.new (Some people) 2 (Pageable.make 0 20 None false)).
Proof.
  destruct (proj1 (map_preserves_envelope (I := Z) 2
                     (Pageable.make 0 20 None false))
              (Some people) (fun x _ => firstName x))
    as (pg' & p' & _ & _ & Hmap & Hbase & _).
  exists p'. split; [exact Hmap|exact Hbase].
Defined.

(** ** The cases of the test suite *)

Example Order_default_direction :
  Order.new (JString "testProp") JUndefined
  = Ok (Order.make asc (JString "testProp")).
Proof. reflexivity. Qed.

Example Order_exact_desc :
  Order.new (JString "testProp") (JString "desc")
  = Ok (Order.make desc (JString "testProp")).
Proof. reflexivity. Qed.

Example Pageable_extra_commas :
  Pageable.new (Some 0%Z) (Some 20%Z) (Some false)
    (Pageable.Raw (QArr ["valueA,"; "valueB,,"; "valueC,,,"]))
  = Ok (Pageable.make 0 20
          (Some (Sort.make [Order.make asc (JString "valueA");
                            Order.make asc (JString "valueB");
                            Order.make asc (JString "valueC")])) false).
Proof. reflexivity. Qed.

Example Pageable_extra_colons :
  Pageable.new (Some 0%Z) (Some 20%Z) (Some false)
    (Pageable.Raw (QArr ["valueA:desc"; "valueB::desc"; "valueC::::desc"]))
  = Ok (Pageable.make 0 20
          (Some (Sort.make [Order.make desc (JString "valueA");
                            Order.make desc (JString "valueB");
                            Order.make desc (JString "valueC")])) false).
Proof. reflexivity. Qed.

Example paginate_text_page_and_size :
  paginate_pageable
    (Query.make (Some (QStr "10")) (Some (QStr "15"))
       (Some (QStr "firstName")) (Some (QStr "true")))
  = Ok (Pageable.make 10 15
          (Some (Sort.make [Order.make asc (JString "firstName")])) true).
Proof. reflexivity. Qed.

Example paginate_empty_page_and_size :
  paginate_pageable
    (Query.make (Some (QStr "")) (Some (QStr ""))
       (Some (QStr "firstName")) (Some (QStr "true")))
  = Ok (Pageable.make 0 10
          (Some (Sort.make [Order.make asc (JString "firstName")])) true).
Proof. reflexivity. Qed.

Example paginate_only_indexed :
  paginate_pageable (Query.make None None None (Some (QStr "true")))
  = Ok (Pageable.make 0 10 None true).
Proof. reflexivity. Qed.

Example paginate_invalid_page :
  paginate_pageable
    (Query.make (Some (QStr "page")) (Some (QStr "size"))
       (Some (QStr "firstName")) (Some (QStr "true")))
  = Throw (NumberFormatError "Could not convert 'page' to number").
Proof. reflexivity. Qed.

Example paginate_invalid_direction :
  paginate_pageable
    (Query.make (Some (QStr "1")) (Some (QStr "20"))
       (Some (QStr "firstName:foo")) (Some (QStr "true")))
  = Throw InvalidSortError.
Proof. reflexivity. Qed.

(** [parseInt] reads the integer a text starts with. *)
Example parseInt_prefix :
  parseInt "12abc" = Some 12%Z ∧ parseInt "  -7" = Some (-7)%Z
  ∧ parseInt "abc" = None ∧ parseInt "" = None ∧ parseInt "- 7" = None.
Proof. by repeat split. Qed.

Example IndexablePage_toJSON_indexed :
  ∃ p : IndexedPage.t Z person,
    IndexablePage.toJSON
      (IndexablePage.new (Some people) 2 (Pageable.make 0 20 None true))
    = Ok (AsIndexed p)
    ∧ IndexedPage.ids p = [1; 2; 3; 4]%Z
    ∧ IndexedPage.index p !! "1" = people !! 0%nat
    ∧ IndexedPage.index p !! "4" = people !! 3%nat
    ∧ IndexedPage.index p !! "5" = None
    ∧ IndexedPage.numberOfElements p = 4%nat.
Proof. eexists. split; [reflexivity|]. by vm_compute. Qed.

(** * Further properties of the parser *)

Lemma split_app_sep sep a b :
  split sep (a +:+ String sep b) = split sep a ++ split sep b.
Proof.
  induction a as [|c a IH]; simpl.
  - by rewrite Ascii.eqb_refl.
  - rewrite IH. destruct (Ascii.eqb c sep); [done|].
    pose proof (split_not_nil sep a) as Hne.
    by destruct (split sep a).
Qed.

Lemma split_join_comma x xs :
  split "," (join "," (x :: xs)) = concat (map (split ",") (x :: xs)).
Proof.
  revert x. induction xs as [|y ys IH]; intros x.
  - simpl. by rewrite app_nil_r.
  - rewrite join_cons_cons.
    change ("," +:+ join "," (y :: ys)) with (String "," (join "," (y :: ys))).
    rewrite split_app_sep, IH. reflexivity.
Qed.

(** X1.  A repeated sort parameter means the same as one parameter holding
    the values joined by commas. *)
Theorem parseSort_repeated_is_joined (xs : list string) :
  parseSort (QArr xs) = parseSort (QStr (join "," xs)).
Proof.
  unfold parseSort. f_equal. unfold sort_tokens.
  destruct xs as [|x xs]; [done|]. by rewrite split_join_comma.
Qed.

Lemma split_keeps_absent c sep s :
  contains c s = false → Forall (fun p => contains c p = false) (split sep s).
Proof.
  induction s as [|c' s IH]; simpl; [by repeat constructor|].
  intros [Hc Hs]%orb_false_iff. specialize (IH Hs).
  destruct (Ascii.eqb c' sep); [by constructor|].
  destruct (split sep s) as [|p ps]; [repeat constructor; simpl; by rewrite Hc|].
  inversion IH; subst. constructor; [|done]. simpl. by rewrite Hc.
Qed.

Lemma sort_tokens_no_comma q tok :
  tok ∈ sort_tokens q → contains "," tok = false.
Proof.
  rewrite sort_tokens_flatten, list_elem_of_In, filter_In, in_concat.
  intros [(pieces & Hpieces & Htok) _].
  apply in_map_iff in Hpieces as (x & <- & _).
  apply list_elem_of_In in Htok.
  by apply (proj1 (Forall_forall _ _) (split_no_sep "," x)).
Qed.

(** X2.  The property of every order that [parseSort] returns is either
    [undefined] or a non-empty text in which neither separator occurs. *)
Theorem parseSort_properties_clean (q : qvalue) (s : Sort.t) (o : Order.t) :
  parseSort q = Ok s → o ∈ Sort.orders s →
  match Order.property o with
  | JString p => p ≠ "" ∧ contains "," p = false ∧ contains ":" p = false
  | JUndefined => True
  | JNull => False
  end.
Proof.
  intros Hq Hin. apply parseSort_Ok in Hq.
  destruct (proj1 (list_elem_of_lookup _ _) Hin) as [i Hi].
  destruct (Forall2_lookup_r _ _ _ _ _ Hq Hi) as (tok & Htok & Horder).
  apply list_elem_of_lookup_2, sort_tokens_no_comma in Htok.
  apply token_order_Ok in Horder as [_ ->]. unfold js_index.
  destruct (sub_tokens tok !! 0) as [p|] eqn:Hp; [|done].
  apply list_elem_of_lookup_2 in Hp. split; [by apply filter_nonempty_elem in Hp|].
  unfold sub_tokens in Hp.
  rewrite list_elem_of_In, filter_In, <- list_elem_of_In in Hp.
  destruct Hp as [Hp _]. split.
  - by apply (proj1 (Forall_forall _ _) (split_keeps_absent "," ":" tok Htok)).
  - by apply (proj1 (Forall_forall _ _) (split_no_sep ":" tok)).
Qed.

Lemma parseSort_properties_clean_witness :
  match Order.property (Order.make desc (JString "b")) with
  | JString p => p ≠ "" ∧ contains "," p = false ∧ contains ":" p = false
  | JUndefined => True
  | JNull => False
  end.
Proof.
  apply (parseSort_properties_clean (QStr "a,b::desc")
           (Sort.make [Order.make asc (JString "a");
                       Order.make desc (JString "b")])).
  - reflexivity.
  - right. left.
Defined.

Lemma filter_split_nil sep s :
  List.filter nonempty (split sep s) = [] ↔ all_chars sep s = true.
Proof.
  induction s as [|c s IH]; simpl; [done|].
  destruct (Ascii.eqb c sep); simpl; [done|].
  destruct (split sep s); simpl; split; discriminate.
Qed.

Lemma split_absent sep s : contains sep s = false → split sep s = [s].
Proof.
  induction s as [|c s IH]; simpl; [done|].
  intros [-> Hs]%orb_false_iff. by rewrite (IH Hs).
Qed.

Lemma all_chars_contains c c' s :
  c ≠ c' → all_chars c s = true → contains c' s = false.
Proof.
  intros Hne. induction s as [|a s IH]; simpl; [done|].
  intros [Ha Hs]%andb_true_iff. apply Ascii.eqb_eq in Ha as ->.
  rewrite (IH Hs), orb_false_r. by apply Ascii.eqb_neq.
Qed.

(** X3.  A token is not dropped for lacking a property: the order built
    from a token has an [undefined] property exactly when the token consists
    of colons only, and a sort value that is such a token parses to one
    ascending order without a property. *)
Theorem colons_only_token_has_no_property :
  (∀ tok o, token_order tok = Ok o →
            (Order.property o = JUndefined ↔ all_chars ":" tok = true))
  ∧ (∀ tok, tok ≠ "" → all_chars ":" tok = true →
            parseSort (QStr tok) = Ok (Sort.make [Order.make asc JUndefined])).
Proof.
  split.
  - intros tok o [_ ->]%token_order_Ok.
    rewrite js_index_JUndefined, <- filter_split_nil. fold (sub_tokens tok).
    destruct (sub_tokens tok); split; done.
  - intros tok Hne Hall.
    assert (token_order tok = Ok (Order.make asc JUndefined)) as Htok.
    { apply token_order_Ok. apply filter_split_nil in Hall.
      fold (sub_tokens tok) in Hall. by rewrite Hall. }
    unfold parseSort, sort_tokens.
    rewrite split_absent by (by apply (all_chars_contains ":")).
    cbn [List.filter]. apply nonempty_true in Hne. rewrite Hne.
    cbn [map_throwing]. by rewrite Htok.
Qed.

Lemma colons_only_token_has_no_property_witness :
  parseSort (QStr "::") = Ok (Sort.make [Order.make asc JUndefined]).
Proof.
  apply (proj2 colons_only_token_has_no_property "::");
    [discriminate|reflexivity].
Defined.

Lemma filter_concat_nil (xss : list (list string)) :
  List.filter nonempty (concat xss) = []
  ↔ Forall (fun xs => List.filter nonempty xs = []) xss.
Proof.
  induction xss as [|xs xss IH]; simpl.
  - split; [constructor|done].
  - rewrite List.filter_app. split.
    + intros [Hxs Hrest]%app_eq_nil. constructor; [done|]. by apply IH.
    + inversion 1 as [|? ? Hxs Hrest]; subst. rewrite Hxs. by apply IH.
Qed.

(** X4.  [parseSort] returns the empty [Sort] exactly for the values that
    hold nothing but commas: the empty text, the empty array, and texts or
    arrays of texts made of commas only. *)
Theorem parseSort_empty_iff (q : qvalue) :
  parseSort q = Ok (Sort.make [])
  ↔ Forall (fun x => all_chars "," x = true) (query_elements q).
Proof.
  rewrite parseSort_Ok. cbn [Sort.orders].
  transitivity (sort_tokens q = []).
  { split; [by inversion 1|intros ->; constructor]. }
  rewrite sort_tokens_flatten, filter_concat_nil, Forall_fmap.
  apply Forall_iff. intros x. apply filter_split_nil.
Qed.

(** X5.  Where the strict conversion of the parser accepts a direction
    value that is a text or is absent, the lenient [Order] constructor
    given the same value stores the same direction. *)
Theorem strict_direction_agrees_with_Order
    (v : jsval) (dir : Direction) (p : jsval) :
  v ≠ JNull → stringToDirection v = Ok dir →
  Order.new p v = Ok (Order.make dir p).
Proof.
  intros Hnull. destruct v as [| |d]; [by intros [= <-]|done|].
  unfold stringToDirection. destruct (isEmpty (JString d)) eqn:Hemp.
  - destruct d; [|done]. by intros [= <-].
  - repeat case_bool_decide; try done; intros [= <-]; simplify_eq; done.
Qed.

Lemma strict_direction_agrees_with_Order_witness :
  Order.new (JString "age") (JString "desc")
  = Ok (Order.make desc (JString "age")).
Proof.
  apply strict_direction_agrees_with_Order; [discriminate|reflexivity].
Defined.

(** X6.  What a caller of [forEach] sees after parsing: the iteratee is
    called once per token, in token order, with the token's first
    sub-token as property and the direction the token asks for. *)
Theorem forEach_after_parseSort {A} (f : jsval → Direction → A)
    (q : qvalue) (s : Sort.t) :
  parseSort q = Ok s →
  Sort.forEach f s
  = map (fun tok => f (js_index (sub_tokens tok) 0) (token_direction tok))
      (sort_tokens q).
Proof.
  intros Hq%parseSort_Ok. unfold Sort.forEach.
  induction Hq as [|tok o toks os Htok _ IH]; [done|].
  cbn [map]. rewrite IH. f_equal.
  apply token_order_Ok in Htok as [Hd ->].
  by rewrite (stringToDirection_token_direction _ _ Hd).
Qed.

Lemma forEach_after_parseSort_witness :
  Sort.forEach (fun p d => (p, d)) (Sort.make [Order.make asc (JString "a");
                                              Order.make desc (JString "b")])
  = [(JString "a", asc); (JString "b", desc)].
Proof.
  apply (forEach_after_parseSort (fun p d => (p, d)) (QStr "a,b:desc")).
  reflexivity.
Defined.

(** * Further properties of the iterator, of Pageable and of the envelope *)

Lemma iterator_after_state n st :
  Sort.it_values (iterator_after n st) = Sort.it_values st
  ∧ Sort.it_count (iterator_after n st) = (Sort.it_count st + n)%nat.
Proof.
  revert st. induction n as [|n IH]; intros st; cbn [iterator_after].
  - split; [done|lia].
  - destruct (IH (snd (Sort.next st))) as [-> ->]. simpl. split; [done|lia].
Qed.

(** X7.  The calls of [next] on a fresh iterator, one by one: call number
    [k + 1] reports [done] exactly when [k] is at least the number of
    orders, and carries the order at position [k + 1], which is
    [undefined] beyond the end.  So [done] is first reported by the call
    after as many calls as there are orders, and from then on every call
    reports [done] with the value [undefined]. *)
Theorem Sort_next_calls (s : Sort.t) (k : nat) :
  fst (Sort.next (iterator_after k (Sort.iter s)))
  = {| Sort.done := (length (Sort.orders s) <=? k)%nat;
       Sort.value := Sort.orders s !! S k |}
  ∧ ((length (Sort.orders s) ≤ k)%nat →
     fst (Sort.next (iterator_after k (Sort.iter s)))
     = {| Sort.done := true; Sort.value := None |}).
Proof.
  destruct (iterator_after_state k (Sort.iter s)) as [Hv Hc].
  assert (fst (Sort.next (iterator_after k (Sort.iter s)))
          = {| Sort.done := (length (Sort.orders s) <=? k)%nat;
               Sort.value := Sort.orders s !! S k |}) as Hcall.
  { unfold Sort.next. cbn [fst]. rewrite Hv, Hc. simpl.
    by rewrite Nat.add_1_r. }
  split; [done|]. intros Hk. rewrite Hcall.
  rewrite (lookup_ge_None_2 _ (S k)) by lia.
  by rewrite (proj2 (Nat.leb_le _ _) Hk).
Qed.

Lemma Sort_next_calls_witness :
  fst (Sort.next (iterator_after 4
         (Sort.iter (Sort.make [Order.make asc (JString "a")]))))
  = {| Sort.done := true; Sort.value := None |}.
Proof.
  apply (proj2 (Sort_next_calls (Sort.make [Order.make asc (JString "a")]) 4)).
  simpl. lia.
Defined.

(** X8.  The [Pageable] constructor given raw sort text.  It throws
    exactly what the parser throws, and only for a value other than the
    empty text.  Otherwise it stores the given page, size and flag (0, 20
    and false where they are missing); the stored sort is absent exactly
    when the value is the empty text, and is the parser's result
    otherwise, so that an empty array or a text of commas gives a present
    but empty [Sort]. *)
Theorem Pageable_new_raw_sort
    (n sz : option Z) (ix : option bool) (q : qvalue) :
  match Pageable.new n sz ix (Pageable.Raw q) with
  | Ok pg =>
      Pageable.page pg = default 0%Z n ∧ Pageable.size pg = default 20%Z sz
      ∧ Pageable.indexed pg = default false ix
      ∧ (Pageable.sort pg = None ↔ q = QStr "")
      ∧ (∀ s, Pageable.sort pg = Some s → parseSort q = Ok s)
  | Throw e => q ≠ QStr "" ∧ parseSort q = Throw e
  end.
Proof.
  unfold Pageable.new. destruct q as [[|c t]|xs]; simpl.
  - by repeat split.
  - destruct (parseSort (QStr (String c t))) as [s|e]; simpl.
    + repeat split; try done. by intros s' [= <-].
    + done.
  - destruct (parseSort (QArr xs)) as [s|e]; simpl.
    + repeat split; try done. by intros s' [= <-].
    + done.
Qed.

Local Open Scope Z_scope.

(** X9.  With a size of at least 1, a page is both the first and the last
    one exactly when its number is 0 and all elements fit in one page. *)
Theorem Page_first_and_last (te : Z) (pg : Pageable.t) :
  1 ≤ Pageable.size pg →
  Page.first (Page.new te pg) = true ∧ Page.last (Page.new te pg) = true
  ↔ Pageable.page pg = 0 ∧ te ≤ Pageable.size pg.
Proof.
  intros Hs.
  destruct (Math_ceil_div_pos te (Pageable.size pg)) as (c & _ & Hc); [lia|].
  pose proof (Page_new_totalPages te pg c ltac:(lia) Hc) as Htp.
  rewrite Page_new_first, (Page_new_last _ _ _ Htp). nia.
Qed.

Lemma Page_first_and_last_witness :
  Page.first (Page.new 4 (Pageable.make 0 20 None false)) = true
  ∧ Page.last (Page.new 4 (Pageable.make 0 20 None false)) = true.
Proof.
  apply (Page_first_and_last 4 (Pageable.make 0 20 None false)); simpl; lia.
Defined.

(** X10.  With a size of at least 1, [totalPages] is an integer that does
    not decrease when the number of elements grows, and the pages have
    room for all elements. *)
Theorem Page_totalPages_monotone (te te' : Z) (pg : Pageable.t) :
  1 ≤ Pageable.size pg → te ≤ te' →
  ∃ c c', Page.totalPages (Page.new te pg) = Fin c
          ∧ Page.totalPages (Page.new te' pg) = Fin c'
          ∧ c ≤ c' ∧ te ≤ c * Pageable.size pg.
Proof.
  intros Hs Hle.
  destruct (Math_ceil_div_pos te (Pageable.size pg)) as (c & _ & Hc); [lia|].
  destruct (Math_ceil_div_pos te' (Pageable.size pg)) as (c' & _ & Hc');
    [lia|].
  exists (Z.max c 1), (Z.max c' 1).
  split; [by apply Page_new_totalPages; [lia|]|].
  split; [by apply Page_new_totalPages; [lia|]|]. nia.
Qed.

Lemma Page_totalPages_monotone_witness :
  ∃ c c', Page.totalPages (Page.new 11 (Pageable.make 0 5 None false)) = Fin c
          ∧ Page.totalPages (Page.new 16 (Pageable.make 0 5 None false))
            = Fin c'
          ∧ c ≤ c'.
Proof.
  destruct (Page_totalPages_monotone 11 16 (Pageable.make 0 5 None false))
    as (c & c' & Hc & Hc' & Hle & _); [simpl; lia|lia|].
  exists c, c'. split; [exact Hc|]. split; [exact Hc'|exact Hle].
Defined.

(** X11.  A negative size is not rejected: for a non-negative number of
    elements it gives one page, and every page number from 0 on is
    reported as last. *)
Theorem Page_new_negative_size (te : Z) (pg : Pageable.t) :
  Pageable.size pg < 0 → 0 ≤ te →
  Page.totalPages (Page.new te pg) = Fin 1
  ∧ (Page.last (Page.new te pg) = true ↔ 0 ≤ Pageable.page pg).
Proof.
  intros Hs Hte.
  assert (Page.totalPages (Page.new te pg) = Fin 1) as Htp.
  { simpl. unfold Math_ceil_div.
    destruct (Z.eqb_spec (Pageable.size pg) 0) as [?|_]; [lia|].
    rewrite Math_max_Fin. f_equal.
    replace (Pageable.size pg) with (- - Pageable.size pg) by lia.
    rewrite Z.div_opp_opp by lia.
    pose proof (Z.div_pos te (- Pageable.size pg) Hte ltac:(lia)). lia. }
  split; [done|]. rewrite (Page_new_last _ _ _ Htp). lia.
Qed.

Lemma Page_new_negative_size_witness :
  Page.totalPages (Page.new 7 (Pageable.make 3 (-5) None false)) = Fin 1.
Proof.
  apply (Page_new_negative_size 7 (Pageable.make 3 (-5) None false));
    simpl; lia.
Defined.

(** X12.  A size of 0 is not rejected either.  For an empty data set the
    quotient 0 / 0 is [NaN], whichever sign the zero has, so that
    [totalPages] is [NaN] instead of 1 and no page number, 0 included, is
    reported as last; [first] is unaffected. *)
Theorem Page_new_zero_size_empty (pg : Pageable.t) :
  Pageable.size pg = 0 →
  Page.totalPages (Page.new 0 pg) = NaN
  ∧ Page.last (Page.new 0 pg) = false
  ∧ (Page.first (Page.new 0 pg) = true ↔ Pageable.page pg = 0).
Proof.
  intros Hs. split; [|split; [|apply Page_new_first]].
  - simpl. by rewrite Hs.
  - simpl. by rewrite Hs.
Qed.

Lemma Page_new_zero_size_empty_witness :
  Page.totalPages (Page.new 0 (Pageable.make 4 0 None true)) = NaN
  ∧ Page.last (Page.new 0 (Pageable.make 4 0 None true)) = false.
Proof.
  destruct (Page_new_zero_size_empty (Pageable.make 4 0 None true) eq_refl)
    as (Htp & Hlast & _).
  split; [exact Htp|exact Hlast].
Defined.

Local Close Scope Z_scope.

(** * Further properties of the entry point *)

Local Open Scope Z_scope.

(** X13.  The middleware never stores the size 0, so the envelope built
    from a [Pageable] it produced always has an integer [totalPages] of at
    least 1, whatever the number of elements. *)
Theorem paginate_gives_integer_totalPages
    (q : Query.t) (pg : Pageable.t) (te : Z) :
  paginate_pageable q = Ok pg →
  ∃ c, Page.totalPages (Page.new te pg) = Fin c ∧ 1 ≤ c.
Proof.
  intros (_ & _ & _ & Hsize & _)%paginate_pageable_Ok.
  assert (Pageable.size pg ≠ 0) as Hne.
  { rewrite Hsize. destruct (parsed_param (Query.size q)) as [n|]; [|done].
    simpl. by destruct (Z.eqb_spec n 0). }
  simpl. unfold Math_ceil_div.
  destruct (Z.eqb_spec (Pageable.size pg) 0) as [?|_]; [done|].
  rewrite Math_max_Fin. eexists. split; [reflexivity|lia].
Qed.

Lemma paginate_gives_integer_totalPages_witness :
  ∃ c, Page.totalPages (Page.new 0 (Pageable.make 0 10 None false)) = Fin c
       ∧ 1 ≤ c.
Proof.
  apply (paginate_gives_integer_totalPages
           (Query.make None (Some (QStr "0")) None None)).
  reflexivity.
Defined.

(** X14.  Whatever the middleware throws is one of the library's own two
    errors, whose class carries the status 400; it never throws a
    TypeError. *)
Theorem paginate_throws_status_400 {A} (ctx : Context) (next : Context → A)
    (e : error) :
  paginate ctx next = Throw e → status e = Some 400 ∧ e ≠ TypeError.
Proof.
  intros He%paginate_Throw.
  by apply paginate_pageable_Throw in He as [[_ [m ->]]| ->].
Qed.

Lemma paginate_throws_status_400_witness :
  status InvalidSortError = Some 400 ∧ InvalidSortError ≠ TypeError.
Proof.
  apply (paginate_throws_status_400
           {| query := Query.make None None (Some (QStr "a:up")) None;
              state_pageable := None |} (fun _ => tt)).
  reflexivity.
Defined.

Lemma unparseable_Throw_for v :
  unparseable (Some v) →
  parseOptionalIntOrThrow (Some v) = Throw (NumberFormatError_for v).
Proof.
  unfold unparseable, parsed_param, parseOptionalIntOrThrow, parseIntOrThrow.
  intros [-> Hnone]. simpl in Hnone. by rewrite Hnone.
Qed.

(** X15.  The order of the checks.  An unparseable page is reported with
    the page's text whatever the size and the sort are; an unparseable size
    is reported with the size's text when the page is fine, whatever the
    sort is.  The sort is parsed last. *)
Theorem paginate_error_precedence :
  (∀ q v, Query.page q = Some v → unparseable (Some v) →
          paginate_pageable q = Throw (NumberFormatError_for v))
  ∧ (∀ q v, ¬ unparseable (Query.page q) → Query.size q = Some v →
            unparseable (Some v) →
            paginate_pageable q = Throw (NumberFormatError_for v)).
Proof.
  split.
  - intros q v Hv Hun. unfold paginate_pageable.
    by rewrite Hv, (unparseable_Throw_for _ Hun).
  - intros q v Hpage Hv Hun. unfold paginate_pageable.
    rewrite (proj2 (parseOptionalIntOrThrow_Ok (Query.page q) _)
               (conj Hpage eq_refl)).
    cbn [mbind result_bind]. by rewrite Hv, (unparseable_Throw_for _ Hun).
Qed.

Lemma paginate_error_precedence_witness :
  paginate_pageable
    (Query.make (Some (QStr "x")) (Some (QStr "y")) (Some (QStr "a:up")) None)
  = Throw (NumberFormatError "Could not convert 'x' to number").
Proof.
  apply (proj1 paginate_error_precedence
           (Query.make (Some (QStr "x")) (Some (QStr "y"))
              (Some (QStr "a:up")) None) (QStr "x")).
  - reflexivity.
  - split; reflexivity.
Defined.

(** ** parseInt *)

(** The sign and digit steps of [parseInt], with the sign test written as
    comparisons. *)
Lemma parseInt_steps input :
  parseInt input =
  match trim_start input with
  | EmptyString => None
  | String c rest =>
      if Ascii.eqb c "-" then
        match leading_digits rest with
        | [] => None
        | ds => Some (-1 * digits_value ds)
        end
      else if Ascii.eqb c "+" then
        match leading_digits rest with
        | [] => None
        | ds => Some (1 * digits_value ds)
        end
      else
        match leading_digits (String c rest) with
        | [] => None
        | ds => Some (1 * digits_value ds)
        end
  end.
Proof.
  unfold parseInt. destruct (trim_start input) as [|c rest]; [done|].
  by destruct c as [[] [] [] [] [] [] [] []].
Qed.

Lemma trim_start_app x t :
  trim_start x ≠ "" → trim_start (x +:+ t) = trim_start x +:+ t.
Proof.
  induction x as [|c x IH]; simpl; [done|].
  destruct (is_white_space c); [done|]. done.
Qed.

Lemma leading_digits_app s t :
  stops_digits t = true → leading_digits (s +:+ t) = leading_digits s.
Proof.
  intros Ht. induction s as [|c s IH]; simpl.
  - destruct t as [|c' t]; [done|]. simpl in *.
    by destruct (digit_value c').
  - destruct (digit_value c); [by rewrite IH|done].
Qed.

Lemma parseInt_app x t n :
  parseInt x = Some n → stops_digits t = true → parseInt (x +:+ t) = Some n.
Proof.
  rewrite !parseInt_steps. intros Hx Ht.
  assert (trim_start x ≠ "") as Hne by (by destruct (trim_start x)).
  rewrite (trim_start_app _ _ Hne).
  destruct (trim_start x) as [|c rest]; [done|].
  change (String c rest +:+ t) with (String c (rest +:+ t)).
  cbv iota beta. rewrite (leading_digits_app rest t Ht).
  change (String c (rest +:+ t)) with (String c rest +:+ t).
  by rewrite (leading_digits_app (String c rest) t Ht).
Qed.

(** X16.  [parseIntOrThrow] reads the integer a text starts with and
    ignores what follows: when a text converts to [n], so does the text
    followed by anything that does not start with a decimal digit. *)
Theorem parseIntOrThrow_ignores_the_rest (x t : string) (n : Z) :
  parseIntOrThrow (QStr x) = Ok n → stops_digits t = true →
  parseIntOrThrow (QStr (x +:+ t)) = Ok n.
Proof.
  unfold parseIntOrThrow. cbn [ToString]. intros Hx Ht.
  destruct (parseInt x) as [n'|] eqn:Hparse; [|done]. injection Hx as ->.
  by rewrite (parseInt_app _ _ _ Hparse Ht).
Qed.

Lemma parseIntOrThrow_ignores_the_rest_witness :
  parseIntOrThrow (QStr (" -12" +:+ ".5 apples")) = Ok (-12).
Proof.
  apply parseIntOrThrow_ignores_the_rest; reflexivity.
Defined.

(** X17.  A repeated numeric parameter arrives as an array, which is
    converted through its comma-joined text: when the first value converts
    to [n] the result is [n] and the other values are ignored; when the
    first value is the empty text the conversion throws, although the
    empty text alone would have taken the default. *)
Theorem parseOptionalIntOrThrow_repeated :
  (∀ x xs n, parseIntOrThrow (QStr x) = Ok n →
             parseOptionalIntOrThrow (Some (QArr (x :: xs))) = Ok (Some n))
  ∧ (∀ xs, parseOptionalIntOrThrow (Some (QArr ("" :: xs)))
           = Throw (NumberFormatError_for (QArr ("" :: xs))))
  ∧ parseOptionalIntOrThrow (Some (QStr "")) = Ok None.
Proof.
  split; [|split; [|done]].
  - intros x xs n Hx. unfold parseOptionalIntOrThrow. cbn [truthy].
    assert (parseIntOrThrow (QArr (x :: xs)) = Ok n) as ->; [|done].
    destruct xs as [|y ys]; [exact Hx|].
    unfold parseIntOrThrow in *. cbn [ToString] in *.
    destruct (parseInt x) as [n'|] eqn:Hparse; [|done]. injection Hx as ->.
    rewrite join_cons_cons.
    by rewrite (parseInt_app x ("," +:+ join "," (y :: ys)) n Hparse eq_refl).
  - intros xs. apply unparseable_Throw_for. split; [done|].
    unfold parsed_param. cbn [truthy mbind option_bind ToString].
    by destruct xs.
Qed.

Lemma parseOptionalIntOrThrow_repeated_witness :
  parseOptionalIntOrThrow (Some (QArr ["3"; "7"])) = Ok (Some 3).
Proof.
  apply (proj1 parseOptionalIntOrThrow_repeated "3" ["7"] 3). reflexivity.
Defined.

Local Close Scope Z_scope.

(** * Further properties of the pages *)

Lemma imap_imap_pointwise {T R S} (f : T → nat → R) (g : R → nat → S)
    (l : list T) :
  imap (fun i y => g y i) (imap (fun i x => f x i) l)
  = imap (fun i x => g (f x i) i) l.
Proof.
  apply list_eq. intros i. rewrite !list_lookup_imap.
  by destruct (l !! i).
Qed.

Lemma imap_keep {T} (l : list T) : imap (fun _ x => x) l = l.
Proof.
  apply list_eq. intros i. rewrite list_lookup_imap. by destruct (l !! i).
Qed.

Lemma imap_plain {T R} (g : T → R) (l : list T) :
  imap (fun _ x => g x) l = g <$> l.
Proof.
  apply list_eq. intros i. by rewrite list_lookup_imap, list_lookup_fmap.
Qed.

Lemma mapValues_mapValues {T R S} (f : T → string → R) (g : R → string → S)
    (m : gmap string T) :
  mapValues (mapValues m f) g = mapValues m (fun v k => g (f v k) k).
Proof.
  apply map_eq. intros k. rewrite !mapValues_lookup.
  by destruct (m !! k).
Qed.

Lemma mapValues_keep {T} (m : gmap string T) :
  mapValues m (fun v _ => v) = m.
Proof.
  apply map_eq. intros k. rewrite mapValues_lookup. by destruct (m !! k).
Qed.

(** X18.  [ArrayPage.map] composes: mapping with [f] and then with [g]
    gives the page that one [map] with the composed transform gives, each
    transform seeing the element's own index. *)
Theorem ArrayPage_map_compose {T R S} (f : T → nat → R) (g : R → nat → S)
    (content : option (list T)) (te : Z) (pg : Pageable.t) :
  ArrayPage.map f (ArrayPage.new content te pg) ≫= ArrayPage.map g
  = ArrayPage.map (fun x i => g (f x i) i) (ArrayPage.new content te pg).
Proof.
  rewrite !ArrayPage_map_eq. cbn [mbind result_bind].
  rewrite ArrayPage_map_eq. cbn [default from_option Datatypes.id Pageable.page Pageable.size
    Pageable.sort]. by rewrite imap_imap_pointwise.
Qed.

(** X19.  [IndexedPage.map] composes in the same way, each transform
    seeing the key of the value; the ids stay as they are. *)
Theorem IndexedPage_map_compose {I T R S}
    (f : T → string → R) (g : R → string → S)
    (ids : list I) (index : gmap string T) (te : Z) (pg : Pageable.t) :
  IndexedPage.map f (IndexedPage.new ids index te pg) ≫= IndexedPage.map g
  = IndexedPage.map (fun v k => g (f v k) k)
      (IndexedPage.new ids index te pg).
Proof.
  rewrite !IndexedPage_map_eq. cbn [mbind result_bind].
  rewrite IndexedPage_map_eq. cbn [Pageable.page Pageable.size Pageable.sort].
  by rewrite mapValues_mapValues.
Qed.

(** X20.  [IndexablePage.map] composes in the same way and keeps the
    [indexed] flag through both steps. *)
Theorem IndexablePage_map_compose {T R S}
    (f : T → nat → R) (g : R → nat → S)
    (content : option (list T)) (te : Z) (pg : Pageable.t) :
  IndexablePage.map f (IndexablePage.new content te pg) ≫= IndexablePage.map g
  = IndexablePage.map (fun x i => g (f x i) i)
      (IndexablePage.new content te pg).
Proof.
  rewrite !IndexablePage_map_eq. cbn [mbind result_bind].
  rewrite IndexablePage_map_eq. cbn [default from_option Datatypes.id Pageable.page Pageable.size
    Pageable.sort Pageable.indexed]. by rewrite imap_imap_pointwise.
Qed.

(** X21.  Mapping with the transform that returns its element gives the
    page back, for each of the three variants. *)
Theorem map_identity {I T} (te : Z) (pg : Pageable.t) :
  (∀ content : option (list T),
     ArrayPage.map (fun x _ => x) (ArrayPage.new content te pg)
     = Ok (ArrayPage.new content te pg))
  ∧ (∀ (ids : list I) (index : gmap string T),
       IndexedPage.map (fun v _ => v) (IndexedPage.new ids index te pg)
       = Ok (IndexedPage.new ids index te pg))
  ∧ (∀ content : option (list T),
       IndexablePage.map (fun x _ => x) (IndexablePage.new content te pg)
       = Ok (IndexablePage.new content te pg)).
Proof.
  split; [|split].
  - intros content. rewrite ArrayPage_map_eq, imap_keep. by destruct content.
  - intros ids index. by rewrite IndexedPage_map_eq, mapValues_keep.
  - intros content. rewrite IndexablePage_map_eq, imap_keep.
    by destruct content, pg.
Qed.

Section serialise.
Context {I T : Type} `{!PropertyKey I, !HasId I T}.

Lemma IndexablePage_toJSON_array (content : option (list T)) te pg :
  Pageable.indexed pg = false →
  IndexablePage.toJSON (I := I) (IndexablePage.new content te pg)
  = Ok (AsArray (ArrayPage.new (Some (default [] content)) te
                   (Pageable.make (Pageable.page pg) (Pageable.size pg)
                      (Pageable.sort pg) false))).
Proof.
  intros Hix. unfold IndexablePage.toJSON, IndexablePage.own_pageable.
  cbn [IndexablePage.new IndexablePage.indexed IndexablePage.base
       IndexablePage.content].
  by rewrite Hix, Pageable_new_of_sort.
Qed.

Lemma IndexablePage_toJSON_indexed_eq (content : option (list T)) te pg :
  Pageable.indexed pg = true →
  IndexablePage.toJSON (I := I) (IndexablePage.new content te pg)
  = Ok (AsIndexed (IndexedPage.new (List.map id_of (default [] content))
                     (keyBy (default [] content)) te
                     (Pageable.make (Pageable.page pg) (Pageable.size pg)
                        (Pageable.sort pg) true))).
Proof.
  intros Hix. unfold IndexablePage.toJSON, IndexablePage.own_pageable.
  cbn [IndexablePage.new IndexablePage.indexed IndexablePage.base
       IndexablePage.content].
  by rewrite Hix, Pageable_new_of_sort.
Qed.

End serialise.

Section serialise_and_map.
Context {I T R : Type} `{!PropertyKey I, !HasId I T, !HasId I R}.

(** X22.  In the array shape, serialising a mapped page gives what mapping
    the serialised page gives. *)
Theorem toJSON_map_commute_array (f : T → nat → R)
    (content : option (list T)) (te : Z) (pg : Pageable.t) :
  Pageable.indexed pg = false →
  ∃ a : ArrayPage.t T,
    IndexablePage.toJSON (I := I) (IndexablePage.new content te pg)
    = Ok (AsArray a)
    ∧ (IndexablePage.map f (IndexablePage.new content te pg)
       ≫= IndexablePage.toJSON (I := I))
      = AsArray <$> ArrayPage.map f a.
Proof.
  intros Hix. eexists. split; [by apply IndexablePage_toJSON_array|].
  rewrite IndexablePage_map_eq, ArrayPage_map_eq. cbn [mbind result_bind].
  by rewrite IndexablePage_toJSON_array.
Qed.

Lemma keyBy_fmap (g : T → R) (xs : list T) :
  (∀ x, id_of (g x) = id_of x) →
  keyBy (g <$> xs) = mapValues (keyBy xs) (fun v _ => g v).
Proof.
  intros Hid. induction xs as [|x xs IH] using rev_ind; [done|].
  rewrite fmap_app. cbn [fmap list_fmap]. rewrite !keyBy_snoc, IH, Hid.
  apply map_eq. intros k. rewrite mapValues_lookup.
  destruct (decide (toKey (id_of x) = k)) as [<-|Hne].
  - by rewrite !lookup_insert_eq.
  - by rewrite !lookup_insert_ne, mapValues_lookup.
Qed.

(** X23.  In the indexed shape the same holds for a transform that keeps
    the id of every element: serialising the mapped page gives what
    mapping the serialised page gives, with the same ids and, under every
    key, the transformed element. *)
Theorem toJSON_map_commute_indexed (g : T → R)
    (content : option (list T)) (te : Z) (pg : Pageable.t) :
  (∀ x, id_of (g x) = id_of x) → Pageable.indexed pg = true →
  ∃ p : IndexedPage.t I T,
    IndexablePage.toJSON (IndexablePage.new content te pg)
    = Ok (AsIndexed p)
    ∧ (IndexablePage.map (fun x _ => g x) (IndexablePage.new content te pg)
       ≫= IndexablePage.toJSON)
      = AsIndexed <$> IndexedPage.map (fun v _ => g v) p.
Proof.
  intros Hid Hix. eexists.
  split; [by apply IndexablePage_toJSON_indexed_eq|].
  rewrite IndexablePage_map_eq, IndexedPage_map_eq. cbn [mbind result_bind].
  rewrite IndexablePage_toJSON_indexed_eq by done.
  cbn [default from_option Datatypes.id Pageable.page Pageable.size
       Pageable.sort fmap result_fmap].
  rewrite imap_plain, keyBy_fmap by done. do 3 f_equal.
  rewrite <- list_fmap_compose. apply list_fmap_ext. intros _ x _. apply Hid.
Qed.

End serialise_and_map.

Section duplicates.
Context {I T : Type} `{!PropertyKey I, !HasId I T}.

Lemma keyBy_lookup_None (xs : list T) (k : string) :
  keyBy xs !! k = None ↔ k ∉ key_of <$> xs.
Proof.
  induction xs as [|x xs IH] using rev_ind.
  - split; [intros _; apply not_elem_of_nil|done].
  - rewrite keyBy_snoc, fmap_app, lookup_insert_None, IH, not_elem_of_app.
    cbn [fmap list_fmap]. rewrite list_elem_of_singleton. unfold key_of.
    split; intros [? ?]; split; try done; congruence.
Qed.

Lemma keyBy_size_le (xs : list T) : (size (keyBy xs) ≤ length xs)%nat.
Proof.
  induction xs as [|x xs IH] using rev_ind; [done|].
  rewrite keyBy_snoc, length_app, map_size_insert. cbn [length].
  destruct (keyBy xs !! toKey (id_of x)); cbv [Datatypes.id]; lia.
Qed.

Lemma keyBy_size_NoDup (xs : list T) :
  size (keyBy xs) = length xs ↔ NoDup (key_of <$> xs).
Proof.
  induction xs as [|x xs IH] using rev_ind.
  - split; [intros _; constructor|done].
  - rewrite keyBy_snoc, length_app, map_size_insert, fmap_app, NoDup_app.
    cbn [fmap list_fmap length]. pose proof (keyBy_size_le xs) as Hle.
    destruct (keyBy xs !! toKey (id_of x)) as [y|] eqn:Hk; cbv [Datatypes.id].
    + split; [lia|]. intros (_ & Hnot & _). exfalso.
      assert (key_of x ∈ key_of <$> xs) as Hin.
      { destruct (decide (key_of x ∈ key_of <$> xs)) as [?|Hn]; [done|].
        apply keyBy_lookup_None in Hn. unfold key_of in Hn. congruence. }
      apply (Hnot _ Hin). by left.
    + apply keyBy_lookup_None in Hk. split.
      * intros Hsize. split; [apply IH; lia|]. split; [|apply NoDup_singleton].
        intros k Hin [->|[]%elem_of_nil]%elem_of_cons. done.
      * intros (Hnd & _ & _). apply IH in Hnd. lia.
Qed.

(** X24.  In the indexed shape [numberOfElements] counts the distinct
    keys: it is at most the number of content elements the page itself
    reports, and equal to it exactly when no two elements share a key. *)
Theorem toJSON_indexed_counts_distinct_keys
    (content : list T) (te : Z) (pg : Pageable.t) :
  Pageable.indexed pg = true →
  ∃ p : IndexedPage.t I T,
    IndexablePage.toJSON (IndexablePage.new (Some content) te pg)
    = Ok (AsIndexed p)
    ∧ (IndexedPage.numberOfElements p
       ≤ IndexablePage.numberOfElements
           (IndexablePage.new (Some content) te pg))%nat
    ∧ (IndexedPage.numberOfElements p
       = IndexablePage.numberOfElements
           (IndexablePage.new (Some content) te pg)
       ↔ NoDup (key_of <$> content)).
Proof.
  intros Hix. eexists.
  split; [by apply IndexablePage_toJSON_indexed_eq|].
  cbn [IndexedPage.new IndexedPage.numberOfElements IndexablePage.new
       IndexablePage.numberOfElements default from_option Datatypes.id].
  split; [apply keyBy_size_le|apply keyBy_size_NoDup].
Qed.

(** X25.  In the indexed shape [ids] and [index] agree: the index has an
    entry under a key exactly when some id in [ids] has that key. *)
Theorem toJSON_indexed_keys_are_ids
    (content : list T) (te : Z) (pg : Pageable.t) :
  Pageable.indexed pg = true →
  ∃ p : IndexedPage.t I T,
    IndexablePage.toJSON (IndexablePage.new (Some content) te pg)
    = Ok (AsIndexed p)
    ∧ ∀ k, is_Some (IndexedPage.index p !! k)
           ↔ ∃ i, i ∈ IndexedPage.ids p ∧ toKey i = k.
Proof.
  intros Hix. eexists.
  split; [by apply IndexablePage_toJSON_indexed_eq|].
  cbn [IndexedPage.new IndexedPage.index IndexedPage.ids default from_option
       Datatypes.id].
  intros k. rewrite <- not_eq_None_Some, keyBy_lookup_None. split.
  - intros Hin. destruct (decide (k ∈ key_of <$> content)) as [Hk|?]; [|done].
    apply list_elem_of_fmap in Hk as (x & -> & Hx). exists (id_of x).
    split; [|done]. apply list_elem_of_fmap. by exists x.
  - intros (i & Hi & <-) Hnot. apply Hnot.
    apply list_elem_of_fmap in Hi as (x & -> & Hx).
    apply list_elem_of_fmap. by exists x.
Qed.

End duplicates.

Lemma toJSON_map_commute_array_witness :
  ∃ a : ArrayPage.t person,
    IndexablePage.toJSON (I := Z)
      (IndexablePage.new (Some people) 4 (Pageable.make 0 20 None false))
    = Ok (AsArray a).
Proof.
  destruct (toJSON_map_commute_array (I := Z) (R := person)
              (fun x _ => x) (Some people) 4
              (Pageable.make 0 20 None false) eq_refl) as (a & Ha & _).
  exists a. exact Ha.
Defined.

Lemma toJSON_map_commute_indexed_witness :
  ∃ p : IndexedPage.t Z person,
    IndexablePage.toJSON
      (IndexablePage.new (Some people) 4 (Pageable.make 0 20 None true))
    = Ok (AsIndexed p).
Proof.
  destruct (toJSON_map_commute_indexed (I := Z) (R := person)
              (fun x => {| id := id x; firstName := lastName x;
                           lastName := firstName x |})
              (Some people) 4 (Pageable.make 0 20 None true)
              (fun x => eq_refl) eq_refl) as (p & Hp & _).
  exists p. exact Hp.
Defined.

Lemma toJSON_indexed_counts_distinct_keys_witness :
  ∃ p : IndexedPage.t Z person,
    IndexablePage.toJSON
      (IndexablePage.new (Some people) 4 (Pageable.make 0 20 None true))
    = Ok (AsIndexed p)
    ∧ (IndexedPage.numberOfElements p ≤ 4)%nat.
Proof.
  destruct (toJSON_indexed_counts_distinct_keys (I := Z) people 4
              (Pageable.make 0 20 None true) eq_refl) as (p & Hp & Hle & _).
  exists p. split; [exact Hp|exact Hle].
Defined.

Lemma toJSON_indexed_keys_are_ids_witness :
  ∃ p : IndexedPage.t Z person,
    IndexablePage.toJSON
      (IndexablePage.new (Some people) 4 (Pageable.make 0 20 None true))
    = Ok (AsIndexed p).
Proof.
  destruct (toJSON_indexed_keys_are_ids (I := Z) people 4
              (Pageable.make 0 20 None true) eq_refl) as (p & Hp & _).
  exists p. exact Hp.
Defined.

Lemma parseSort_empty_iff_witness :
  parseSort (QStr ",,") = Ok (Sort.make []).
Proof.
  apply (proj2 (parseSort_empty_iff (QStr ",,"))).
  constructor; [reflexivity|constructor].
Defined.

Lemma Pageable_new_raw_sort_witness :
  Pageable.sort (Pageable.make 3 20 (Some (Sort.make [])) false) = None
  ↔ QArr [] = QStr "".
Proof.
  pose proof (Pageable_new_raw_sort (Some 3%Z) None None (QArr [])) as H.
  simpl in H. destruct H as (_ & _ & _ & Hsort & _). exact Hsort.
Defined.
